(** * vmapplet: configuration options and internode growth kinetics

    A shallow embedding of [vmapplet/organs/internode.py] and
    [vmapplet/options.py], followed by the properties established about them.

    Numbers are Python floats, i.e. IEEE-754 binary64 values with
    round-to-nearest-even arithmetic; they are modelled by the kernel's
    primitive floats, whose operations are the same binary64 operations.
    Python's true division raises [ZeroDivisionError] on a zero divisor and
    is written out as such ([truediv]).  Exceptions are values of [pyerr]
    carried by the [result] monad. *)

From Stdlib Require Import ZArith List String Ascii Bool Lia Floats FinFun.
From Stdlib Require Import Reals Lra Permutation.
Import ListNotations.

Set Warnings "-inexact-float,-register-all".

Local Open Scope string_scope.
Local Open Scope list_scope.

(** ** Exceptions and the error monad *)

Inductive pyerr : Type :=
| TypeError
| AttributeError
| KeyError
| ZeroDivisionError
| TomlDecodeError.

Inductive result (A : Type) : Type :=
| Ok (a : A)
| Raise (e : pyerr).

Arguments Ok {A} a.
Arguments Raise {A} e.

Definition bind {A B : Type} (m : result A) (k : A -> result B) : result B :=
  match m with
  | Ok a => k a
  | Raise e => Raise e
  end.

Notation "x <- m ;; k" := (bind m (fun x => k))
  (at level 61, m at next level, right associativity).

(** Python's [a / b] on floats. *)
Definition truediv (a b : float) : result float :=
  if PrimFloat.eqb b 0%float then Raise ZeroDivisionError
  else Ok (PrimFloat.div a b).

(** ** organs/internode.py *)

Module internode.

Local Open Scope float_scope.

(** The instance attributes set by [Internode.__init__]. *)
Record Internode : Type := mkInternode {
  _min_length : float;
  _plastochron : float;
  _elongation_period : float;
  _max_length : float;
  _final_none : float;
  _final_dormant_start : float;
  _final_small : float;
  _final_diffuse : float;
  _final_medium : float;
  _final_floral : float;
  _final_dormant_end : float;
  _final_else : float
}.

(** [Internode.__init__].  Every division is by the literal [1.5], which is
    not zero, so the constructor cannot raise (see [truediv_literal]);
    [a * b / c] is [(a * b) / c], as Python parses it. *)
Definition __init__ (min_length elongation_period plastochron max_length : float)
  : Internode :=
  {| _min_length := min_length;
     _plastochron := plastochron;
     _elongation_period := elongation_period;
     _max_length := max_length;
     _final_none := max_length / 1.5;
     _final_dormant_start := 0.25 * max_length / 1.5;
     _final_small := 0.5 * max_length / 1.5;
     _final_diffuse := max_length / 1.5;
     _final_medium := 0.75 * max_length / 1.5;
     _final_floral := 0.5 * max_length / 1.5;
     _final_dormant_end := 0.25 * max_length / 1.5;
     _final_else := 0.25 * max_length / 1.5 |}.

(** The keyword defaults of [__init__]. *)
Definition default_min_length : float := 0.0001.
Definition default_elongation_period : float := 10.
Definition default_plastochron : float := 3.0.
Definition default_max_length : float := 0.03.

(** [Internode.growth_rate]; [uzone] is [None] or a string. *)
Definition growth_rate (self : Internode) (uzone : option string) : result float :=
  match uzone with
  | None => truediv (_final_none self) (_elongation_period self)
  | Some z =>
      if String.eqb z "dormant_start" then
        truediv (_final_dormant_start self) (_elongation_period self)
      else if String.eqb z "small" then
        truediv (_final_small self) (_elongation_period self)
      else if String.eqb z "diffuse" then
        truediv (_final_diffuse self) (_elongation_period self)
      else if String.eqb z "medium" then
        truediv (_final_medium self) (_elongation_period self)
      else if String.eqb z "floral" then
        truediv (_final_floral self) (_elongation_period self)
      else if String.eqb z "dormant_end" then
        truediv (_final_dormant_end self) (_elongation_period self)
      else
        truediv (_final_else self) (_elongation_period self)
  end.

(** The six strings [growth_rate] tests for; with [None] they are the seven
    recognized zone labels. *)
Definition recognized (z : string) : bool :=
  existsb (String.eqb z)
    ["dormant_start"; "small"; "diffuse"; "medium"; "floral"; "dormant_end"].

End internode.

(** ** Python values

    The values configuration data is made of: what a TOML document decodes
    to (booleans, integers, floats, strings, datetimes, lists, dicts), [None],
    tuples, and instances of the dataclasses of [options.py].  A dict is an
    association list in insertion order.  Its keys are strings (TOML keys,
    keyword names, field names) or the tuples [(year, key)] the fate table is
    keyed by. *)

Inductive key : Type :=
| KStr (s : string)
| KTup (year : Z) (k : key).

(** The eleven parameter groups, and the classes of [options.py]. *)
Inductive group : Type :=
| OptionsGeneral
| OptionsInput
| OptionsOutput
| OptionsEvents
| OptionsTree
| OptionsWood
| OptionsInternode
| OptionsApex
| OptionsMarkov
| OptionsFruit
| OptionsLeaf.

Inductive cls : Type :=
| Cls (g : group)
| Options.

Inductive pyval : Type :=
| VNone
| VBool (b : bool)
| VInt (n : Z)
| VFloat (x : float)
| VStr (s : string)
| VDatetime (year month day hour minute second : Z)
| VList (items : list pyval)
| VTuple (items : list pyval)
| VDict (entries : list (key * pyval))
| VInstance (c : cls) (attrs : list (string * pyval)).

Definition dict : Type := list (key * pyval).

(** The attributes of an instance, in field order. *)
Definition namespace : Type := list (string * pyval).

Fixpoint key_eqb (a b : key) : bool :=
  match a, b with
  | KStr s, KStr t => String.eqb s t
  | KTup y k, KTup z l => Z.eqb y z && key_eqb k l
  | _, _ => false
  end.

(** A key as a value, as iteration over a dict yields it. *)
Fixpoint key_val (k : key) : pyval :=
  match k with
  | KStr s => VStr s
  | KTup y k' => VTuple [VInt y; key_val k']
  end.

(** [d[k]] as a lookup. *)
Fixpoint dict_get (k : key) (d : dict) : option pyval :=
  match d with
  | [] => None
  | (k', v) :: d' => if key_eqb k k' then Some v else dict_get k d'
  end.

(** [d[k] = v]: an existing key keeps its place, a new one goes last. *)
Fixpoint dict_set (k : key) (v : pyval) (d : dict) : dict :=
  match d with
  | [] => [(k, v)]
  | (k', v') :: d' =>
      if key_eqb k k' then (k', v) :: d' else (k', v') :: dict_set k v d'
  end.

Definition dict_keys (d : dict) : list key := map fst d.

Fixpoint ns_get (n : string) (self : namespace) : option pyval :=
  match self with
  | [] => None
  | (n', v) :: rest => if String.eqb n n' then Some v else ns_get n rest
  end.

(** [self.n], and [self.n = v] for a field [n] of the instance. *)
Definition getattr (self : namespace) (n : string) : result pyval :=
  match ns_get n self with
  | Some v => Ok v
  | None => Raise AttributeError
  end.

Fixpoint setattr (self : namespace) (n : string) (v : pyval) : namespace :=
  match self with
  | [] => []
  | (n', v') :: rest =>
      if String.eqb n n' then (n', v) :: rest else (n', v') :: setattr rest n v
  end.

(** [dataclasses._asdict_inner]: instances become dicts, containers are
    rebuilt around their converted items, anything else is copied. *)
Fixpoint asdict_inner (v : pyval) : pyval :=
  match v with
  | VInstance _ attrs =>
      VDict (map (fun nv => (KStr (fst nv), asdict_inner (snd nv))) attrs)
  | VList items => VList (map asdict_inner items)
  | VTuple items => VTuple (map asdict_inner items)
  | VDict entries =>
      VDict (map (fun kv => (fst kv, asdict_inner (snd kv))) entries)
  | _ => v
  end.

(** [dataclasses.asdict]. *)
Definition asdict (self : pyval) : result dict :=
  match self with
  | VInstance _ attrs =>
      Ok (map (fun nv => (KStr (fst nv), asdict_inner (snd nv))) attrs)
  | _ => Raise TypeError
  end.

(** [iter(v)], run to the end. *)
Definition py_iter (v : pyval) : result (list pyval) :=
  match v with
  | VList items => Ok items
  | VTuple items => Ok items
  | VDict entries => Ok (map key_val (dict_keys entries))
  | VStr s => Ok (map (fun c => VStr (String c EmptyString)) (list_ascii_of_string s))
  | VInstance _ attrs => Ok (map (fun nv => VStr (fst nv)) attrs)
  | _ => Raise TypeError
  end.

(** [v.items()]: dicts have it, and so do the option classes, which inherit
    it from [Mapping] (over [__iter__] and [__getitem__], both through
    [asdict]). *)
Definition py_items (v : pyval) : result dict :=
  match v with
  | VDict entries => Ok entries
  | VInstance _ _ => asdict v
  | _ => Raise AttributeError
  end.

(** ** options.py *)

Section options_py.

(** The default of [OptionsInput.lpy_path],
    [str(pathlib.Path(__file__).parent.joinpath('lpy'))]: it depends on where
    the package is installed. *)
Variable lpy_path : string.

Local Open Scope float_scope.

(** [dict(day=.., month=.., duration=..)]. *)
Definition event (day month duration : Z) : pyval :=
  VDict [(KStr "day", VInt day); (KStr "month", VInt month);
         (KStr "duration", VInt duration)].

(** The fields of each parameter group, in declaration order, with the value
    the default (or a call of the default factory) gives. *)
Definition fields (g : group) : list (string * pyval) :=
  match g with
  | OptionsGeneral =>
      [("date_start", VDatetime 1994 1 1 0 0 0);
       ("date_end", VDatetime 1998 6 30 0 0 0);
       ("seed", VInt 1163078255);
       ("second_year_draws", VBool true);
       ("ruptures", VBool false);
       ("stake", VBool true);
       ("select_trunk", VInt 0);
       ("mechanics", VBool true);
       ("render_mode", VStr "bark");
       ("stride_number", VInt 5);
       ("pruning", VBool false);
       ("convergence_steps", VInt 2)]
  | OptionsOutput =>
      [("sequences", VBool false);
       ("l_string", VBool false);
       ("light_interception", VBool false);
       ("counts", VBool false);
       ("trunk", VBool false);
       ("leaves", VBool true);
       ("mtg", VBool false);
       ("shoots", VBool false)]
  | OptionsInput =>
      [("lpy_files", VDict []);
       ("lpy_path", VStr lpy_path)]
  | OptionsEvents =>
      [("bud_break", event 15 5 1);
       ("new_cambial_layer", event 15 5 1);
       ("pre_harvest", event 29 10 1);
       ("harvest", event 30 10 1);
       ("autumn", event 1 11 45);
       ("leaf_fall", event 15 11 45);
       ("leaf_out", event 25 12 1)]
  | OptionsTree =>
      [("phyllotactic_angle", VFloat (-144.0));
       ("branching_angle", VFloat 45.0);
       ("floral_angle", VFloat (-10.0));
       ("tropism", VFloat 0.1);
       ("preformed_leaves", VInt 8);
       ("spur_death_probability", VFloat 0.3);
       ("inflorescence_death_probability", VFloat 0.2)]
  | OptionsWood =>
      [("wood_density", VInt 1000);
       ("reaction_wood_rate", VFloat 0.5);
       ("reaction_wood_inertia_coefficient", VFloat 0.1);
       ("youngs_modulus", VFloat 1.1);
       ("modulus_of_rupture", VFloat 50e6)]
  | OptionsInternode =>
      [("min_length", VFloat 0.0001);
       ("elongation_period", VFloat 10.0);
       ("plastochron", VFloat 3.0);
       ("max_length", VFloat 0.03)]
  | OptionsApex =>
      [("terminal_expansion_rate", VFloat 0.00002);
       ("minimum_size", VFloat 0.00075);
       ("maximum_size", VFloat 0.003)]
  | OptionsMarkov =>
      [("maximum_length", VInt 70);
       ("minimum_length", VInt 4);
       ("terminal_fate", VDict [])]
  | OptionsFruit =>
      [("flower_duration", VFloat 10.0);
       ("max_relative_growth_rate", VFloat 0.167);
       ("lost_time", VInt 28);
       ("max_age", VInt 147);
       ("probability", VFloat 0.3);
       ("max_absolute_growth_rate", VFloat 0.0018)]
  | OptionsLeaf =>
      [("fall_probability", VFloat 0.1);
       ("maturation", VInt 12);
       ("mass_per_area", VFloat 0.220);
       ("max_area", VFloat 0.003);
       ("min_final_area", VFloat 0.0020);
       ("petiole_radius", VFloat 0.0006);
       ("preformed_leaves", VInt 8)]
  end.

Definition field_names (g : group) : list string := map fst (fields g).

(** The generated [__init__] of a dataclass, called as [cls( **kwargs)]: a
    keyword that is not a string or not a field is a [TypeError]; a field
    takes its keyword's value, or else its default. *)
Definition keyword_ok (names : list string) (k : key) : bool :=
  match k with
  | KStr n => existsb (String.eqb n) names
  | KTup _ _ => false
  end.

Fixpoint bind_fields (decl : list (string * result pyval)) (kwargs : dict)
  : result namespace :=
  match decl with
  | [] => Ok []
  | (n, default) :: rest =>
      v <- match dict_get (KStr n) kwargs with
           | Some v => Ok v
           | None => default
           end ;;
      self <- bind_fields rest kwargs ;;
      Ok ((n, v) :: self)
  end.

Definition dataclass_init (decl : list (string * result pyval)) (kwargs : dict)
  : result namespace :=
  if forallb (keyword_ok (map fst decl)) (dict_keys kwargs)
  then bind_fields decl kwargs
  else Raise TypeError.

(** The loop of [OptionsMarkov.__post_init__] from position [i] on:
    [for key, val in item.items(): fate[(i + 1, key)] = val]. *)
Definition fate_item (i : Z) (fate : dict) (entries : dict) : dict :=
  fold_left (fun fate kv => dict_set (KTup (i + 1) (fst kv)) (snd kv) fate)
            entries fate.

Fixpoint fate_loop (i : Z) (items : list pyval) (fate : dict) : result dict :=
  match items with
  | [] => Ok fate
  | item :: rest =>
      entries <- py_items item ;;
      fate_loop (i + 1) rest (fate_item i fate entries)
  end.

(** The value [OptionsMarkov.__post_init__] computes for [fate] from
    [self.terminal_fate]: the fate-table normalization. *)
Definition normalize (terminal_fate : pyval) : result pyval :=
  match terminal_fate with
  | VNone => Ok VNone
  | _ =>
      items <- py_iter terminal_fate ;;
      fate <- fate_loop 0 items [] ;;
      Ok (VDict fate)
  end.

Definition OptionsMarkov__post_init__ (self : namespace) : result namespace :=
  terminal_fate <- getattr self "terminal_fate" ;;
  fate <- normalize terminal_fate ;;
  Ok (setattr self "terminal_fate" fate).

(** [__post_init__] as each group class has it: only [OptionsMarkov] defines
    one. *)
Definition __post_init__ (g : group) (self : namespace) : result namespace :=
  match g with
  | OptionsMarkov => OptionsMarkov__post_init__ self
  | _ => Ok self
  end.

(** [cls( **kwargs)] for a parameter group class. *)
Definition construct (g : group) (kwargs : dict) : result pyval :=
  self <- dataclass_init (map (fun nv => (fst nv, Ok (snd nv))) (fields g)) kwargs ;;
  self <- __post_init__ g self ;;
  Ok (VInstance (Cls g) self).

Definition _make_dataclass (g : group) (data_or_cls : pyval) : result pyval :=
  match data_or_cls with
  | VDict kwargs => construct g kwargs
  | _ => Ok data_or_cls
  end.

(** The fields of [Options]; the default factory of each calls its class
    without arguments. *)
Definition Options_fields : list (string * group) :=
  [("general", OptionsGeneral);
   ("input", OptionsInput);
   ("output", OptionsOutput);
   ("events", OptionsEvents);
   ("tree", OptionsTree);
   ("wood", OptionsWood);
   ("internode", OptionsInternode);
   ("apex", OptionsApex);
   ("markov", OptionsMarkov);
   ("fruit", OptionsFruit);
   ("leaf", OptionsLeaf)].

(** [self.n = _make_dataclass(g, self.n)]. *)
Definition coerce (g : group) (n : string) (self : namespace) : result namespace :=
  v <- getattr self n ;;
  v' <- _make_dataclass g v ;;
  Ok (setattr self n v').

Definition Options__post_init__ (self : namespace) : result namespace :=
  self <- coerce OptionsGeneral "general" self ;;
  self <- coerce OptionsInput "input" self ;;
  self <- coerce OptionsOutput "output" self ;;
  self <- coerce OptionsEvents "events" self ;;
  self <- coerce OptionsTree "tree" self ;;
  self <- coerce OptionsWood "wood" self ;;
  self <- coerce OptionsInternode "internode" self ;;
  self <- coerce OptionsApex "apex" self ;;
  self <- coerce OptionsMarkov "markov" self ;;
  self <- coerce OptionsFruit "fruit" self ;;
  coerce OptionsLeaf "leaf" self.

(** [Options( **kwargs)]. *)
Definition Options_construct (kwargs : dict) : result pyval :=
  self <- dataclass_init
            (map (fun ng => (fst ng, construct (snd ng) [])) Options_fields)
            kwargs ;;
  self <- Options__post_init__ self ;;
  Ok (VInstance Options self).

(** [OptionsBase.__getitem__]. *)
Definition __getitem__ (self : pyval) (k : key) : result pyval :=
  d <- asdict self ;;
  match dict_get k d with
  | Some v => Ok v
  | None => Raise KeyError
  end.

(** [OptionsBase.__iter__], run to the end, and [OptionsBase.__len__]. *)
Definition __iter__ (self : pyval) : result (list key) :=
  d <- asdict self ;;
  Ok (dict_keys d).

Definition __len__ (self : pyval) : result Z :=
  d <- asdict self ;;
  Ok (Z.of_nat (List.length d)).

(** The [toml] package is not part of the repository: its two functions are
    taken as given. *)
Record toml : Type := {
  toml_dumps : pyval -> result string;
  toml_loads : string -> result pyval
}.

(** [Options.loads] and [Options.dumps]. *)
Definition Options_loads (T : toml) (options : string) : result pyval :=
  d <- toml_loads T options ;;
  match d with
  | VDict kwargs => Options_construct kwargs
  | _ => Raise TypeError
  end.

Definition Options_dumps (T : toml) (self : pyval) : result string :=
  d <- asdict self ;;
  toml_dumps T (VDict d).

End options_py.

(** ** Vocabulary of the properties *)

(** The all-defaults instance of a group, and of the root. *)
Definition defaults (lpy_path : string) (g : group) : pyval :=
  VInstance (Cls g) (fields lpy_path g).

Definition default_root (lpy_path : string) : pyval :=
  VInstance Options
    (map (fun ng => (fst ng, defaults lpy_path (snd ng))) Options_fields).

(** [self.n], for an instance [self]. *)
Definition attr (self : pyval) (n : string) : option pyval :=
  match self with
  | VInstance _ attrs => ns_get n attrs
  | _ => None
  end.

(** [self.n.f]: field [f] of sub-group [n] of a root. *)
Definition field (root : pyval) (n f : string) : option pyval :=
  match attr root n with
  | Some sub => attr sub f
  | None => None
  end.

(** Scalars: booleans, integers, floats, strings, dates. *)
Definition scalar (v : pyval) : bool :=
  match v with
  | VBool _ | VInt _ | VFloat _ | VStr _ | VDatetime _ _ _ _ _ _ => true
  | _ => false
  end.

(** Values that hold no dataclass instance. *)
Fixpoint plain (v : pyval) : bool :=
  match v with
  | VInstance _ _ => false
  | VList items => forallb plain items
  | VTuple items => forallb plain items
  | VDict entries => forallb (fun kv => plain (snd kv)) entries
  | _ => true
  end.

(** The entries [dataclasses.asdict] makes of an instance's attributes. *)
Definition export (attrs : namespace) : dict :=
  map (fun nv => (KStr (fst nv), asdict_inner (snd nv))) attrs.

(** An instance of group class [g] with the fields [g] declares. *)
Definition instance_of (lpy_path : string) (g : group) (v : pyval) : Prop :=
  exists fs, v = VInstance (Cls g) fs /\ map fst fs = field_names lpy_path g.

(** An [Options] root whose eleven attributes are instances of their group
    classes, as [Options.__post_init__] leaves them. *)
Definition wf_root (lpy_path : string) (root : pyval) : Prop :=
  exists attrs,
    root = VInstance Options attrs /\
    map fst attrs = map fst Options_fields /\
    forall n g, In (n, g) Options_fields ->
      exists v, ns_get n attrs = Some v /\ instance_of lpy_path g v.

(** The root's fate table is empty (or absent). *)
Definition fate_empty (root : pyval) : Prop :=
  field root "markov" "terminal_fate" = Some (VDict []) \/
  field root "markov" "terminal_fate" = Some VNone.

(** [text] is what [toml.dumps] makes of the root's exported mapping, and
    [toml.loads] reads that mapping back from it. *)
Definition codec_reproduces (T : toml) (root : pyval) (text : string) : Prop :=
  exists d,
    asdict root = Ok d /\
    toml_dumps T (VDict d) = Ok text /\
    toml_loads T text = Ok (VDict d).


(** An entry of the keyword arguments of [Options] that is absent, a raw
    mapping, or an instance of the group class the field is declared with. *)
Definition entry_ok (g : group) (entry : option pyval) : Prop :=
  match entry with
  | None => True
  | Some (VDict _) => True
  | Some (VInstance (Cls g') _) => g' = g
  | Some _ => False
  end.

(** The statements of [Options.__post_init__], as a loop over the fields. *)
Fixpoint coerce_all (lpy_path : string) (fs : list (string * group))
  (self : namespace) : result namespace :=
  match fs with
  | [] => Ok self
  | (n, g) :: rest =>
      self <- coerce lpy_path g n self ;;
      coerce_all lpy_path rest self
  end.

(** A well-shaped raw fate table: one mapping per year, from category labels
    to lists of integers.  [raw_table] is the Python value it stands for. *)
Definition table : Type := list (list (string * list Z)).

Definition ints (l : list Z) : pyval := VList (map VInt l).

Definition entry_val (e : list (string * list Z)) : pyval :=
  VDict (map (fun lv => (KStr (fst lv), ints (snd lv))) e).

Definition raw_table (t : table) : pyval := VList (map entry_val t).

(** What the normalization is to produce for the positions from [i] on:
    [(i + 1, label) -> value-list] for each pair of each position. *)
Fixpoint flat_table (i : Z) (t : table) : dict :=
  match t with
  | [] => []
  | e :: t' =>
      map (fun lv => (KTup (i + 1) (KStr (fst lv)), ints (snd lv))) e
      ++ flat_table (i + 1) t'
  end.

(** The spec's example, [[{"A": [1,2]}, {"A": [3], "B": [4]}]]. *)
Definition example_table : table :=
  [[("A", [1; 2])]; [("A", [3]); ("B", [4])]]%Z.



(** An [OptionsMarkov] instance with the default lengths. *)
Definition markov_with (fate : pyval) : pyval :=
  VInstance (Cls OptionsMarkov)
    [("maximum_length", VInt 70); ("minimum_length", VInt 4);
     ("terminal_fate", fate)].

(** The labels of each position's mapping are distinct, as dict keys are. *)
Definition labels_distinct (t : table) : Prop :=
  Forall (fun e => NoDup (map fst e)) t.

(** A root built from a raw mapping for [general] and an instance for
    [leaf], the other entries absent. *)
Definition example_kwargs : dict :=
  [(KStr "general", VDict [(KStr "seed", VInt 7)]);
   (KStr "leaf", defaults "lpy" OptionsLeaf)].

Definition example_root : pyval :=
  Eval vm_compute in
    match Options_construct "lpy" example_kwargs with
    | Ok root => root
    | Raise _ => VNone
    end.

(** The root built from the spec's example fate table and nothing else. *)
Definition example_markov_root : pyval :=
  Eval vm_compute in
    match Options_construct "lpy"
            [(KStr "markov", VDict [(KStr "terminal_fate", raw_table example_table)])]
    with
    | Ok root => root
    | Raise _ => VNone
    end.

(** A [toml] that knows one document: it serves as the instance at which the
    round trip is exercised. *)
Definition one_document (d : dict) : toml :=
  {| toml_dumps := fun _ => Ok "document";
     toml_loads := fun text =>
       if String.eqb text "document" then Ok (VDict d) else Raise TomlDecodeError |}.

(** *** Floating-point rounding

    The real value of a binary64 number, and the states [binary_round_aux]
    of [SpecFloat] goes through when it rounds a real [x]. *)

Section rounding_vocabulary.

Variables prec emax : Z.

Local Open Scope R_scope.

(** Powers of two, as reals. *)
Definition bpow (e : Z) : R := powerRZ 2 e.

(** [u] lies in [[m, m+1)], at the place [l] says. *)
Definition placed (u : R) (m : Z) (l : location) : Prop :=
  match l with
  | loc_Exact => u = IZR m
  | loc_Inexact c =>
      IZR m < u < IZR m + 1 /\
      match c with
      | Lt => u < IZR m + / 2
      | Eq => u = IZR m + / 2
      | Gt => IZR m + / 2 < u
      end
  end.

(** [x] lies in [[m, m+1) * 2^e], at the place [l] says. *)
Definition located (x : R) (m e : Z) (l : location) : Prop :=
  placed (x / bpow e) m l.

(** The state after the first shift of [binary_round_aux]: [x] is located
    at the exponent [t] its magnitude calls for. *)
Definition staged (x : R) (m t : Z) (l : location) : Prop :=
  located x m t l /\ (0 <= m)%Z /\ (SpecFloat.emin prec emax <= t)%Z /\
  x < bpow (t + prec) /\
  ((SpecFloat.emin prec emax < t)%Z -> bpow (t + prec - 1) <= x).

(** The second part of [binary_round_aux]: renormalize the rounded
    mantissa and check for overflow. *)
Definition finish (m t : Z) : spec_float :=
  let '(mrs, e) := shr_fexp prec emax m t loc_Exact in
  match shr_m mrs with
  | Z0 => S754_zero false
  | Zpos p => if (e <=? emax - prec)%Z then S754_finite false p e else S754_infinity false
  | Zneg _ => S754_nan
  end.

(** Zero, a positive finite number or plus infinity. *)
Definition nonneg (f : spec_float) : Prop :=
  match f with
  | S754_zero _ | S754_finite false _ _ | S754_infinity false => True
  | _ => False
  end.

(** [x], located at [(m, e)] with a mantissa long enough for its
    magnitude: what [binary_round_aux] expects. *)
Definition roundable (x : R) (m e : Z) (l : location) : Prop :=
  (0 <= m)%Z /\ located x m e l /\
  (e <= SpecFloat.fexp prec emax (Zdigits2 m + e))%Z.

(** The value of a positive finite number. *)
Definition F2R (m : positive) (e : Z) : R := IZR (Zpos m) * bpow e.

End rounding_vocabulary.

(** A factor [c] in [0.25, 0.5, 0.75]: multiplying by it does not increase,
    and the two divisions that follow keep the order. *)
Definition shrinking (c : float) : Prop :=
  exists m e, Prim2SF c = S754_finite false m e /\
              (2 ^ (FloatOps.prec - 1) <= Zpos m)%Z /\ (e <= 0)%Z /\
              (Zpos m <= 2 ^ (- e))%Z.

(** Every keyword of [kwargs] is a string naming one of [names]. *)
Definition keywords_declared (names : list string) (kwargs : dict) : Prop :=
  forall k, In k (dict_keys kwargs) -> exists n, In n names /\ k = KStr n.

(** What the normalization is to make of a sequence of dicts, from position
    [i] on: the entries in order, each key paired with its year. *)
Fixpoint flat_dicts (i : Z) (ds : list dict) : dict :=
  match ds with
  | [] => []
  | d :: ds' =>
      map (fun kv => (KTup (i + 1) (fst kv), snd kv)) d ++ flat_dicts (i + 1) ds'
  end.


(** * Properties *)

(** ** Internode growth rate *)

Section growth_rate_properties.

Import internode.
Local Open Scope float_scope.

Lemma truediv_literal (x : float) : truediv x 1.5 = Ok (x / 1.5).
Proof. reflexivity. Qed.

Lemma truediv_nonzero (a b : float) :
  PrimFloat.eqb b 0 = false -> truediv a b = Ok (a / b).
Proof. intros Hb. unfold truediv. now rewrite Hb. Qed.

Lemma truediv_zero (a b : float) :
  PrimFloat.eqb b 0 = true -> truediv a b = Raise ZeroDivisionError.
Proof. intros Hb. unfold truediv. now rewrite Hb. Qed.

(** A string outside the six tested ones reaches the final [else]. *)
Lemma growth_rate_else (self : Internode) (z : string) :
  recognized z = false ->
  growth_rate self (Some z) = truediv (_final_else self) (_elongation_period self).
Proof.
  unfold recognized. cbn [existsb]. intros H.
  repeat (apply orb_false_iff in H; destruct H as [?E H]).
  cbn [growth_rate]. now rewrite E, E0, E1, E2, E3, E4.
Qed.

Ltac zone_cases z :=
  cbn [growth_rate];
  repeat match goal with
         | |- context [String.eqb z ?l] => destruct (String.eqb z l)
         end.

(** Whatever the zone, the outcome is that of one division by the period. *)
Lemma growth_rate_total (self : Internode) (uzone : option string) :
  PrimFloat.eqb (_elongation_period self) 0 = false ->
  exists v, growth_rate self uzone = Ok v.
Proof.
  intros He. destruct uzone as [z|]; [zone_cases z|cbn [growth_rate]];
    rewrite truediv_nonzero by exact He; eexists; reflexivity.
Qed.

(** C1 (as it holds on the code).  For an Internode built from floats with a
    non-zero elongation period, [growth_rate] returns the zone's terminal
    length divided by the period, for [None] and for every string: the
    terminal length is [max_length / 1.5] for [None] and ['diffuse'], and
    [c * max_length / 1.5], evaluated in that order, with [c = 0.75] for
    ['medium'], [0.5] for ['small'] and ['floral'], [0.25] for
    ['dormant_start'], ['dormant_end'] and any other string.  With
    [max_length = 0.03] and a period of [10.0] the rate is [0.001] for
    ['small'], [0.002] for [None] and [0.0005] for ['unrecognized_label']. *)
Theorem growth_rate_spec
  (min_length elongation_period plastochron max_length : float) :
  PrimFloat.eqb elongation_period 0 = false ->
  let self := __init__ min_length elongation_period plastochron max_length in
  growth_rate self None = Ok (max_length / 1.5 / elongation_period) /\
  growth_rate self (Some "diffuse") = Ok (max_length / 1.5 / elongation_period) /\
  growth_rate self (Some "medium")
    = Ok (0.75 * max_length / 1.5 / elongation_period) /\
  growth_rate self (Some "small")
    = Ok (0.5 * max_length / 1.5 / elongation_period) /\
  growth_rate self (Some "floral")
    = Ok (0.5 * max_length / 1.5 / elongation_period) /\
  growth_rate self (Some "dormant_start")
    = Ok (0.25 * max_length / 1.5 / elongation_period) /\
  growth_rate self (Some "dormant_end")
    = Ok (0.25 * max_length / 1.5 / elongation_period) /\
  (forall z, recognized z = false ->
     growth_rate self (Some z)
       = Ok (0.25 * max_length / 1.5 / elongation_period)) /\
  (forall uzone, exists v, growth_rate self uzone = Ok v) /\
  growth_rate (__init__ default_min_length 10.0 default_plastochron 0.03)
    (Some "small") = Ok 0.001 /\
  growth_rate (__init__ default_min_length 10.0 default_plastochron 0.03)
    None = Ok 0.002 /\
  growth_rate (__init__ default_min_length 10.0 default_plastochron 0.03)
    (Some "unrecognized_label") = Ok 0.0005.
Proof.
  intros He self.
  assert (Hdiv : forall a, truediv a (_elongation_period self)
                           = Ok (a / elongation_period))
    by (intros a; apply truediv_nonzero; exact He).
  repeat split; try (cbn; apply Hdiv); try (vm_compute; reflexivity).
  - intros z Hz. rewrite growth_rate_else by exact Hz. apply Hdiv.
  - intros uzone. apply growth_rate_total. exact He.
Qed.

Lemma growth_rate_spec_witness :
  PrimFloat.eqb 10.0 0 = false /\
  growth_rate (__init__ 0.0001 10.0 3.0 0.03) (Some "medium")
    = Ok (0.75 * 0.03 / 1.5 / 10.0).
Proof.
  split; [reflexivity|].
  exact (proj1 (proj2 (proj2
           (growth_rate_spec 0.0001 10.0 3.0 0.03 eq_refl)))).
Defined.

(** C1 as stated fails: with a zero elongation period the call raises. *)
Lemma growth_rate_zero_period_raises :
  growth_rate (__init__ 0.0001 0.0 3.0 0.03) (Some "small")
    = Raise ZeroDivisionError /\
  growth_rate (__init__ 0.0001 0.0 3.0 0.03) None
    = Raise ZeroDivisionError.
Proof. split; reflexivity. Qed.

(** C9.  Two Internodes with the same elongation period and maximum length
    give the same outcome of [growth_rate] for every zone, whatever their
    [min_length] and [plastochron]. *)
Theorem growth_rate_ignores_min_length_and_plastochron
  (min_length1 min_length2 plastochron1 plastochron2 : float)
  (elongation_period max_length : float) (uzone : option string) :
  growth_rate (__init__ min_length1 elongation_period plastochron1 max_length) uzone
  = growth_rate (__init__ min_length2 elongation_period plastochron2 max_length) uzone.
Proof. destruct uzone as [z|]; reflexivity. Qed.

End growth_rate_properties.

(** ** Dicts and namespaces *)

Lemma key_eqb_eq (a b : key) : key_eqb a b = true <-> a = b.
Proof.
  revert b. induction a as [s|y k IH]; intros [t|z l]; cbn;
    try (split; discriminate).
  - rewrite String.eqb_eq. split; congruence.
  - rewrite andb_true_iff, Z.eqb_eq, IH. split.
    + intros [-> ->]. reflexivity.
    + intros E. injection E. auto.
Qed.

Lemma key_eqb_refl (k : key) : key_eqb k k = true.
Proof. now apply key_eqb_eq. Qed.

Lemma key_eqb_neq (a b : key) : key_eqb a b = false <-> a <> b.
Proof.
  rewrite <- key_eqb_eq. destruct (key_eqb a b); split; congruence.
Qed.

Lemma dict_get_app (k : key) (d1 d2 : dict) :
  dict_get k (d1 ++ d2)
  = match dict_get k d1 with Some v => Some v | None => dict_get k d2 end.
Proof.
  induction d1 as [|[k' v'] d1 IH]; cbn; [reflexivity|].
  destruct (key_eqb k k'); [reflexivity|exact IH].
Qed.

Lemma dict_get_none (k : key) (d : dict) :
  ~ In k (dict_keys d) -> dict_get k d = None.
Proof.
  induction d as [|[k' v'] d IH]; cbn; [reflexivity|]. intros H.
  destruct (key_eqb k k') eqn:E.
  - apply key_eqb_eq in E. subst. tauto.
  - apply IH. tauto.
Qed.

Lemma dict_get_in (k : key) (v : pyval) (d : dict) :
  dict_get k d = Some v -> In (k, v) d.
Proof.
  induction d as [|[k' v'] d IH]; cbn; [discriminate|].
  destruct (key_eqb k k') eqn:E.
  - apply key_eqb_eq in E. intros [= ->]. subst. now left.
  - intros H. right. now apply IH.
Qed.

(** In a dict, where keys do not repeat, the entries are the lookups. *)
Lemma dict_get_iff_in (k : key) (v : pyval) (d : dict) :
  NoDup (dict_keys d) -> dict_get k d = Some v <-> In (k, v) d.
Proof.
  intros Hnd. split; [apply dict_get_in|].
  induction d as [|[k' v'] d IH]; cbn; [tauto|].
  inversion Hnd as [|? ? Hk Hd]; subst.
  intros [[= -> ->]|Hin].
  - now rewrite key_eqb_refl.
  - destruct (key_eqb k k') eqn:E.
    + apply key_eqb_eq in E. subst. exfalso. apply Hk.
      change k' with (fst (k', v)). now apply in_map.
    + now apply IH.
Qed.

(** Assigning to a key the dict does not have appends the entry. *)
Lemma dict_set_fresh (k : key) (v : pyval) (d : dict) :
  dict_get k d = None -> dict_set k v d = d ++ [(k, v)].
Proof.
  induction d as [|[k' v'] d IH]; cbn; [reflexivity|].
  destruct (key_eqb k k'); [discriminate|]. intros H. now rewrite IH.
Qed.

Lemma dict_get_set (k k' : key) (v : pyval) (d : dict) :
  dict_get k (dict_set k' v d)
  = if key_eqb k k' then Some v else dict_get k d.
Proof.
  induction d as [|[k0 v0] d IH]; cbn.
  - reflexivity.
  - destruct (key_eqb k' k0) eqn:E0; cbn.
    + apply key_eqb_eq in E0. subst k0. destruct (key_eqb k k'); reflexivity.
    + destruct (key_eqb k k0) eqn:E1; [|exact IH].
      apply key_eqb_eq in E1. subst k0.
      destruct (key_eqb k k') eqn:E2; [|reflexivity].
      apply key_eqb_eq in E2. subst k'. rewrite key_eqb_refl in E0.
      discriminate.
Qed.

(** ** Fate-table normalization *)

Section normalization.

Lemma fate_item_fresh (i : Z) (entries fate : dict) :
  NoDup (dict_keys entries) ->
  (forall k, In k (dict_keys entries) -> dict_get (KTup (i + 1) k) fate = None) ->
  fate_item i fate entries
  = fate ++ map (fun kv => (KTup (i + 1) (fst kv), snd kv)) entries.
Proof.
  unfold fate_item. revert fate.
  induction entries as [|[k v] entries IH]; intros fate Hnd Hfresh; cbn.
  - now rewrite app_nil_r.
  - inversion Hnd as [|? ? Hk Hnd']; subst.
    rewrite dict_set_fresh by (apply Hfresh; now left).
    rewrite IH; [now rewrite <- app_assoc|exact Hnd'|].
    intros k' Hk'. rewrite dict_get_app, Hfresh by (now right). cbn [dict_get].
    destruct (key_eqb (KTup (i + 1) k') (KTup (i + 1) k)) eqn:E; [|reflexivity].
    apply key_eqb_eq in E. injection E as ->. contradiction.
Qed.

Lemma flat_table_years (i : Z) (t : table) (k : key) (v : pyval) :
  In (k, v) (flat_table i t) -> exists y l, k = KTup y (KStr l) /\ (i < y)%Z.
Proof.
  revert i. induction t as [|e t IH]; intros i; cbn; [tauto|].
  rewrite in_app_iff, in_map_iff. intros [[[l vs] [[= <- <-] _]]|H].
  - exists (i + 1)%Z, l. split; [reflexivity|lia].
  - destruct (IH _ H) as (y & l & -> & Hy). exists y, l. split; [reflexivity|lia].
Qed.

Lemma flat_table_get_year (i y : Z) (t : table) (k : key) :
  (y <= i)%Z -> dict_get (KTup y k) (flat_table i t) = None.
Proof.
  intros Hy. destruct (dict_get (KTup y k) (flat_table i t)) eqn:E; [|reflexivity].
  apply dict_get_in, flat_table_years in E. destruct E as (y' & l & [= -> ->] & H).
  lia.
Qed.

(** On a well-shaped table the loop cannot raise, and appends the entries of
    [flat_table] to a dict that holds no later year. *)
Lemma fate_loop_table (t : table) : forall (i : Z) (fate : dict),
  labels_distinct t ->
  (forall y k, (i < y)%Z -> dict_get (KTup y k) fate = None) ->
  fate_loop i (map entry_val t) fate = Ok (fate ++ flat_table i t).
Proof.
  induction t as [|e t IH]; intros i fate Hd Hfresh; cbn.
  - now rewrite app_nil_r.
  - inversion Hd as [|? ? He Hd']; subst.
    rewrite fate_item_fresh.
    + rewrite map_map. cbn [fst snd]. rewrite IH; [now rewrite <- app_assoc|exact Hd'|].
      intros y k Hy. rewrite dict_get_app, Hfresh by lia.
      apply dict_get_none. unfold dict_keys. rewrite map_map. cbn [fst].
      rewrite in_map_iff. intros [lv [[= E _] _]]. lia.
    + unfold dict_keys. rewrite map_map. cbn [fst].
      rewrite <- (map_map fst KStr). apply Injective_map_NoDup; [|exact He].
      intros a b [= ->]. reflexivity.
    + intros k _. apply Hfresh. lia.
Qed.

Lemma flat_table_in (t : table) : forall (i : Z) (k : key) (v : pyval),
  In (k, v) (flat_table i t) <->
  exists (j : nat) e l vs,
    nth_error t j = Some e /\ In (l, vs) e /\
    k = KTup (i + Z.of_nat j + 1) (KStr l) /\ v = ints vs.
Proof.
  induction t as [|e t IH]; intros i k v; cbn.
  - split; [tauto|]. intros ([|j] & e & l & vs & H & _); discriminate.
  - rewrite in_app_iff, in_map_iff, IH. split.
    + intros [[[l vs] [[= <- <-] Hin]]|(j & e' & l & vs & Hn & Hin & -> & ->)].
      * exists 0%nat, e, l, vs. cbn. repeat split; [exact Hin|f_equal; lia].
      * exists (S j), e', l, vs. cbn. repeat split; [exact Hn|exact Hin|f_equal; lia].
    + intros ([|j] & e' & l & vs & Hn & Hin & -> & ->); cbn in Hn.
      * injection Hn as <-. left. exists (l, vs). split; [|exact Hin].
        cbn. f_equal. f_equal. lia.
      * right. exists j, e', l, vs. repeat split; [exact Hn|exact Hin|f_equal; lia].
Qed.

Lemma flat_table_nodup (t : table) : forall i : Z,
  labels_distinct t -> NoDup (dict_keys (flat_table i t)).
Proof.
  induction t as [|e t IH]; intros i Hd; cbn; [constructor|].
  inversion Hd as [|? ? He Hd']; subst.
  unfold dict_keys. rewrite map_app, map_map. cbn [fst].
  apply NoDup_app.
  - rewrite <- (map_map fst (fun l => KTup (i + 1) (KStr l))).
    apply Injective_map_NoDup; [|exact He]. intros a b [= ->]. reflexivity.
  - apply IH. exact Hd'.
  - intros k Hk Hk'. apply in_map_iff in Hk as [lv [<- _]].
    apply in_map_iff in Hk' as [[k' v'] [E Hin]]. cbn in E. subst k'.
    apply flat_table_years in Hin as (y & l & [= -> _] & Hy). lia.
Qed.

Lemma normalize_table (t : table) :
  labels_distinct t -> normalize (raw_table t) = Ok (VDict (flat_table 0 t)).
Proof.
  intros Hd. unfold normalize, raw_table. cbn [py_iter bind].
  now rewrite fate_loop_table.
Qed.

(** [__post_init__] stores what [normalize] computes. *)
Lemma post_init_normalize (self : namespace) (raw fate : pyval) :
  getattr self "terminal_fate" = Ok raw ->
  normalize raw = Ok fate ->
  OptionsMarkov__post_init__ self = Ok (setattr self "terminal_fate" fate).
Proof.
  intros Hget Hn. unfold OptionsMarkov__post_init__. now rewrite Hget; cbn; rewrite Hn.
Qed.

(** C2.  An absent raw table ([None]) is normalized to [None].  A sequence of
    label-to-integer-list mappings is normalized to exactly the mapping that
    holds, for each 0-based position [i] and each pair [(label, values)] of
    the mapping at [i], the key [(i + 1, label)] with [values], and no other
    key; [__post_init__] stores that mapping in [terminal_fate].  In
    particular [[{"A": [1,2]}, {"A": [3], "B": [4]}]] gives
    [{(1,"A"): [1,2], (2,"A"): [3], (2,"B"): [4]}]. *)
Theorem normalize_fate_table (t : table) :
  labels_distinct t ->
  normalize VNone = Ok VNone /\
  normalize (raw_table t) = Ok (VDict (flat_table 0 t)) /\
  (forall k v,
     dict_get k (flat_table 0 t) = Some v <->
     exists (i : nat) e label values,
       nth_error t i = Some e /\ In (label, values) e /\
       k = KTup (Z.of_nat i + 1) (KStr label) /\ v = ints values) /\
  (forall self,
     getattr self "terminal_fate" = Ok (raw_table t) ->
     OptionsMarkov__post_init__ self
     = Ok (setattr self "terminal_fate" (VDict (flat_table 0 t)))) /\
  (forall self,
     getattr self "terminal_fate" = Ok VNone ->
     OptionsMarkov__post_init__ self = Ok (setattr self "terminal_fate" VNone)) /\
  normalize (raw_table example_table)
  = Ok (VDict [(KTup 1 (KStr "A"), ints [1; 2]);
               (KTup 2 (KStr "A"), ints [3]);
               (KTup 2 (KStr "B"), ints [4])])%Z.
Proof.
  intros Hd. repeat split.
  - now apply normalize_table.
  - intros H. apply dict_get_iff_in in H; [|now apply flat_table_nodup].
    apply flat_table_in in H. exact H.
  - intros H. apply dict_get_iff_in; [now apply flat_table_nodup|].
    apply flat_table_in. exact H.
  - intros self Hget. apply (post_init_normalize _ _ _ Hget).
    now apply normalize_table.
  - intros self Hget. now apply (post_init_normalize _ _ _ Hget).
Qed.

Lemma normalize_fate_table_witness :
  labels_distinct example_table /\
  dict_get (KTup 2 (KStr "B")) (flat_table 0 example_table) = Some (ints [4%Z]).
Proof.
  assert (Hd : labels_distinct example_table).
  { repeat constructor; cbn; intuition discriminate. }
  split; [exact Hd|].
  apply (proj1 (proj2 (proj2 (normalize_fate_table _ Hd)))).
  exists 1%nat, [("A", [3]); ("B", [4])]%Z, "B", [4%Z].
  cbn. intuition.
Defined.

End normalization.

(** ** Construction of the markov group *)

Section markov_construction.

Variable lpy_path : string.

Lemma construct_markov (raw : pyval) :
  construct lpy_path OptionsMarkov [(KStr "terminal_fate", raw)]
  = fate <- normalize raw ;; Ok (markov_with fate).
Proof.
  unfold construct. cbn. destruct (normalize raw); reflexivity.
Qed.







(** C7.  The normalization is not idempotent: replayed on a non-empty
    normalized table it raises (iteration yields the table's keys, which are
    tuples and have no [items]), and so does constructing the markov group
    from that table. *)
Theorem normalize_not_idempotent (raw : pyval) (fate : dict) :
  normalize raw = Ok (VDict fate) ->
  fate <> [] ->
  normalize (VDict fate) = Raise AttributeError /\
  construct lpy_path OptionsMarkov [(KStr "terminal_fate", VDict fate)]
  = Raise AttributeError.
Proof.
  intros _ Hne.
  assert (H : normalize (VDict fate) = Raise AttributeError).
  { destruct fate as [|[k v] fate]; [contradiction|].
    unfold normalize. cbn. now destruct k. }
  split; [exact H|]. now rewrite construct_markov, H.
Qed.

End markov_construction.



Lemma normalize_not_idempotent_witness :
  normalize (raw_table example_table)
  = Ok (VDict [(KTup 1 (KStr "A"), ints [1; 2]);
               (KTup 2 (KStr "A"), ints [3]);
               (KTup 2 (KStr "B"), ints [4])])%Z /\
  normalize (VDict [(KTup 1 (KStr "A"), ints [1; 2]);
                    (KTup 2 (KStr "A"), ints [3]);
                    (KTup 2 (KStr "B"), ints [4])])%Z
  = Raise AttributeError.
Proof.
  split; [reflexivity|].
  refine (proj1 (normalize_not_idempotent "lpy" (raw_table example_table) _ eq_refl _)).
  discriminate.
Defined.

(** ** Construction of the root *)

Lemma ns_get_setattr (self : namespace) (n m : string) (v : pyval) :
  ns_get n (setattr self m v)
  = if String.eqb n m
    then match ns_get m self with Some _ => Some v | None => None end
    else ns_get n self.
Proof.
  induction self as [|[n' v'] self IH]; cbn.
  - now destruct (String.eqb n m).
  - destruct (String.eqb m n') eqn:Em; cbn.
    + apply String.eqb_eq in Em. subst n'.
      destruct (String.eqb n m); reflexivity.
    + destruct (String.eqb n n') eqn:En.
      * apply String.eqb_eq in En. subst n'.
        rewrite String.eqb_sym, Em. reflexivity.
      * exact IH.
Qed.

Lemma setattr_names (self : namespace) (n : string) (v : pyval) :
  map fst (setattr self n v) = map fst self.
Proof.
  induction self as [|[n' v'] self IH]; cbn; [reflexivity|].
  destruct (String.eqb n n'); cbn; now rewrite ?IH.
Qed.

Lemma ns_get_in (n : string) (v : pyval) (self : namespace) :
  ns_get n self = Some v -> In n (map fst self).
Proof.
  induction self as [|[n' v'] self IH]; cbn; [discriminate|].
  destruct (String.eqb n n') eqn:E.
  - apply String.eqb_eq in E. now left.
  - intros H. right. now apply IH.
Qed.

Section root_construction.

Variable lpy_path : string.

Lemma construct_defaults (g : group) :
  construct lpy_path g [] = Ok (defaults lpy_path g).
Proof. destruct g; reflexivity. Qed.

(** A constructor returns an instance of its class. *)
Lemma construct_instance (g : group) (kwargs : dict) (v : pyval) :
  construct lpy_path g kwargs = Ok v -> exists fs, v = VInstance (Cls g) fs.
Proof.
  unfold construct. destruct (dataclass_init _ kwargs) as [self|]; [|discriminate].
  cbn. destruct (__post_init__ g self) as [self'|]; [|discriminate].
  cbn. intros [= <-]. now exists self'.
Qed.

(** The generated [__init__] binds each field to its keyword's value, or to
    its default. *)
Lemma bind_fields_get (decl : list (string * result pyval)) (kwargs : dict) :
  forall self : namespace,
  NoDup (map fst decl) ->
  bind_fields decl kwargs = Ok self ->
  map fst self = map fst decl /\
  forall n default, In (n, default) decl ->
    exists v, ns_get n self = Some v /\
              match dict_get (KStr n) kwargs with
              | Some w => v = w
              | None => default = Ok v
              end.
Proof.
  induction decl as [|[n0 d0] decl IH]; intros self Hnd; cbn.
  - intros [= <-]. split; [reflexivity|]. intros n d [].
  - inversion Hnd as [|? ? Hn0 Hnd']; subst.
    destruct (match dict_get (KStr n0) kwargs with Some v => Ok v | None => d0 end)
      as [v0|] eqn:E0; [|discriminate].
    cbn. destruct (bind_fields decl kwargs) as [self'|]; [|discriminate].
    cbn. intros [= <-]. destruct (IH self' Hnd' eq_refl) as [Hnames Hget].
    split; [cbn; now rewrite Hnames|].
    intros n d [[= -> ->]|Hin]; cbn.
    + rewrite String.eqb_refl. exists v0. split; [reflexivity|].
      destruct (dict_get (KStr n) kwargs); congruence.
    + destruct (String.eqb n n0) eqn:E.
      * apply String.eqb_eq in E. subst n0. exfalso. apply Hn0.
        change n with (fst (n, d)). now apply in_map.
      * exact (Hget n d Hin).
Qed.

Lemma coerce_inv (g : group) (n : string) (self self' : namespace) :
  coerce lpy_path g n self = Ok self' ->
  exists v v', ns_get n self = Some v /\
               _make_dataclass lpy_path g v = Ok v' /\
               self' = setattr self n v'.
Proof.
  unfold coerce, getattr. destruct (ns_get n self) as [v|]; [|discriminate].
  cbn. destruct (_make_dataclass lpy_path g v) as [v'|] eqn:E; [|discriminate].
  cbn. intros [= <-]. now exists v, v'.
Qed.

(** Each statement of [__post_init__] rewrites its own attribute and no
    other. *)
Lemma coerce_all_inv (fs : list (string * group)) :
  forall self self' : namespace,
  NoDup (map fst fs) ->
  coerce_all lpy_path fs self = Ok self' ->
  map fst self' = map fst self /\
  (forall n, ~ In n (map fst fs) -> ns_get n self' = ns_get n self) /\
  (forall n g, In (n, g) fs ->
     exists v v', ns_get n self = Some v /\
                  _make_dataclass lpy_path g v = Ok v' /\
                  ns_get n self' = Some v').
Proof.
  induction fs as [|[n0 g0] fs IH]; intros self self' Hnd; cbn.
  - intros [= <-]. repeat split. intros n g [].
  - inversion Hnd as [|? ? Hn0 Hnd']; subst.
    destruct (coerce lpy_path g0 n0 self) as [self1|] eqn:E1; [|discriminate].
    cbn. intros Hrest.
    destruct (coerce_inv _ _ _ _ E1) as (v0 & v0' & Hv0 & Hmk & ->).
    destruct (IH _ _ Hnd' Hrest) as (Hnames & Hother & Hthese).
    split; [now rewrite Hnames, setattr_names|]. split.
    + intros n Hn. cbn in Hn. rewrite Hother by tauto. rewrite ns_get_setattr.
      destruct (String.eqb n n0) eqn:E; [|reflexivity].
      apply String.eqb_eq in E. subst n0. tauto.
    + intros n g [[= -> ->]|Hin].
      * exists v0, v0'. repeat split; [exact Hv0|exact Hmk|].
        rewrite Hother by exact Hn0.
        now rewrite ns_get_setattr, String.eqb_refl, Hv0.
      * destruct (Hthese n g Hin) as (v & v' & Hv & Hmk' & Hv').
        exists v, v'. repeat split; [|exact Hmk'|exact Hv'].
        rewrite ns_get_setattr in Hv. destruct (String.eqb n n0) eqn:E; [|exact Hv].
        apply String.eqb_eq in E. subst n0. exfalso. apply Hn0.
        change n with (fst (n, g)). now apply in_map.
Qed.

Lemma Options__post_init___loop (self : namespace) :
  Options__post_init__ lpy_path self = coerce_all lpy_path Options_fields self.
Proof.
  unfold Options__post_init__, Options_fields. cbn [coerce_all].
  repeat match goal with
         | |- context [coerce lpy_path ?g ?n ?s] =>
             destruct (coerce lpy_path g n s); cbn [bind]; [|reflexivity]
         end.
  reflexivity.
Qed.

Lemma Options_fields_nodup : NoDup (map fst Options_fields).
Proof.
  cbn. repeat constructor; cbn; intuition discriminate.
Qed.

(** What a successful [Options( **kwargs)] leaves in each attribute:
    [_make_dataclass] of the keyword's value, or of the all-defaults group. *)
Lemma Options_construct_inv (kwargs : dict) (root : pyval) :
  Options_construct lpy_path kwargs = Ok root ->
  exists attrs,
    root = VInstance Options attrs /\
    map fst attrs = map fst Options_fields /\
    forall n g, In (n, g) Options_fields ->
      exists v v',
        match dict_get (KStr n) kwargs with
        | Some w => v = w
        | None => v = defaults lpy_path g
        end /\
        _make_dataclass lpy_path g v = Ok v' /\
        ns_get n attrs = Some v'.
Proof.
  unfold Options_construct, dataclass_init.
  destruct (forallb _ (dict_keys kwargs)); [|discriminate].
  destruct (bind_fields _ kwargs) as [self|] eqn:Einit; [|discriminate].
  cbn [bind]. rewrite Options__post_init___loop.
  destruct (coerce_all lpy_path Options_fields self) as [attrs|] eqn:Epost;
    [|discriminate].
  cbn [bind]. intros [= <-]. exists attrs.
  apply bind_fields_get in Einit as [Hnames Hinit];
    [|rewrite map_map; exact Options_fields_nodup].
  apply coerce_all_inv in Epost as (Hnames' & _ & Hpost);
    [|exact Options_fields_nodup].
  split; [reflexivity|]. split.
  - rewrite Hnames', Hnames, map_map. reflexivity.
  - intros n g Hin. destruct (Hpost n g Hin) as (v & v' & Hv & Hmk & Hv').
    exists v, v'. repeat split; [|exact Hmk|exact Hv'].
    destruct (Hinit n (construct lpy_path g [])) as (v0 & Hv0 & Hkw).
    { apply in_map_iff. now exists (n, g). }
    rewrite Hv in Hv0. injection Hv0 as <-.
    destruct (dict_get (KStr n) kwargs); [exact Hkw|].
    rewrite construct_defaults in Hkw. now injection Hkw.
Qed.

(** C4.  When every entry given to [Options] is absent, a raw mapping or an
    instance of the matching group class, each of the eleven attributes of
    the constructed root is an instance of its group class: the instance
    supplied, unmodified; or what the group's own constructor (normalization
    included) makes of the mapping supplied; or the all-defaults group. *)
Theorem Options_attributes_are_groups (kwargs : dict) (root : pyval) :
  (forall n g, In (n, g) Options_fields -> entry_ok g (dict_get (KStr n) kwargs)) ->
  Options_construct lpy_path kwargs = Ok root ->
  forall n g, In (n, g) Options_fields ->
    exists fs,
      attr root n = Some (VInstance (Cls g) fs) /\
      match dict_get (KStr n) kwargs with
      | Some (VDict mapping) =>
          construct lpy_path g mapping = Ok (VInstance (Cls g) fs)
      | Some instance => instance = VInstance (Cls g) fs
      | None => defaults lpy_path g = VInstance (Cls g) fs
      end.
Proof.
  intros Hentries Hroot n g Hin.
  destruct (Options_construct_inv _ _ Hroot) as (attrs & -> & _ & Hattrs).
  destruct (Hattrs n g Hin) as (v & v' & Hv & Hmk & Hv').
  specialize (Hentries n g Hin). cbn [attr]. rewrite Hv'.
  destruct (dict_get (KStr n) kwargs) as [w|].
  - subst v. destruct w as [ | | | | | | | |mapping|[g'|] fs]; cbn in Hentries;
      try contradiction.
    + cbn in Hmk. destruct (construct_instance _ _ _ Hmk) as [fs ->].
      now exists fs.
    + subst g'. cbn in Hmk. injection Hmk as <-. now exists fs.
  - subst v. cbn in Hmk. injection Hmk as <-. now exists (fields lpy_path g).
Qed.

(** C8.  When [Options] is given a raw mapping for one sub-group and nothing
    else, each of the other ten attributes of the constructed root is the
    all-defaults instance of its group class. *)
Theorem Options_siblings_are_defaults
  (n0 : string) (mapping : dict) (root : pyval) :
  Options_construct lpy_path [(KStr n0, VDict mapping)] = Ok root ->
  forall n g, In (n, g) Options_fields -> n <> n0 ->
    attr root n = Some (defaults lpy_path g).
Proof.
  intros Hroot n g Hin Hn.
  destruct (Options_construct_inv _ _ Hroot) as (attrs & -> & _ & Hattrs).
  destruct (Hattrs n g Hin) as (v & v' & Hv & Hmk & Hv').
  cbn [dict_get key_eqb] in Hv.
  apply String.eqb_neq in Hn. rewrite Hn in Hv. subst v.
  cbn in Hmk. injection Hmk as <-. exact Hv'.
Qed.

End root_construction.

Lemma example_kwargs_ok (n : string) (g : group) :
  In (n, g) Options_fields -> entry_ok g (dict_get (KStr n) example_kwargs).
Proof.
  intros Hin. cbn in Hin.
  repeat (destruct Hin as [[= <- <-]|Hin]; [cbn; auto|]). destruct Hin.
Qed.

Lemma Options_attributes_are_groups_witness :
  Options_construct "lpy" example_kwargs = Ok example_root /\
  exists fs,
    attr example_root "general" = Some (VInstance (Cls OptionsGeneral) fs) /\
    construct "lpy" OptionsGeneral [(KStr "seed", VInt 7)]
    = Ok (VInstance (Cls OptionsGeneral) fs).
Proof.
  split; [reflexivity|].
  apply (Options_attributes_are_groups "lpy" example_kwargs example_root
           example_kwargs_ok eq_refl "general" OptionsGeneral).
  cbn. auto.
Defined.

Lemma Options_siblings_are_defaults_witness :
  Options_construct "lpy"
    [(KStr "markov", VDict [(KStr "terminal_fate", raw_table example_table)])]
  = Ok example_markov_root /\
  attr example_markov_root "leaf" = Some (defaults "lpy" OptionsLeaf).
Proof.
  split; [reflexivity|].
  apply (Options_siblings_are_defaults "lpy" "markov"
           [(KStr "terminal_fate", raw_table example_table)]
           example_markov_root eq_refl "leaf" OptionsLeaf).
  - cbn. tauto.
  - discriminate.
Defined.

(** ** Access by key *)

Lemma asdict_inner_plain : forall v : pyval, plain v = true -> asdict_inner v = v.
Proof.
  fix IH 1. intros [ | | | | | |items|items|entries|c attrs]; cbn;
    intros H; try reflexivity; try discriminate.
  - f_equal. induction items as [|x items IHitems]; cbn in *; [reflexivity|].
    apply andb_true_iff in H as [Hx H]. f_equal; [now apply IH|now apply IHitems].
  - f_equal. induction items as [|x items IHitems]; cbn in *; [reflexivity|].
    apply andb_true_iff in H as [Hx H]. f_equal; [now apply IH|now apply IHitems].
  - f_equal. induction entries as [|[k x] entries IHentries]; cbn in *; [reflexivity|].
    apply andb_true_iff in H as [Hx H].
    f_equal; [f_equal; now apply IH|now apply IHentries].
Qed.

Lemma scalar_plain (v : pyval) : scalar v = true -> plain v = true.
Proof. destruct v; cbn; congruence. Qed.

Lemma dict_get_export (attrs : namespace) (k : key) :
  dict_get k (export attrs)
  = match k with
    | KStr n => option_map asdict_inner (ns_get n attrs)
    | KTup _ _ => None
    end.
Proof.
  induction attrs as [|[n' v'] attrs IH]; cbn.
  - now destruct k.
  - destruct k as [n|y k]; cbn; [|exact IH].
    destruct (String.eqb n n'); [reflexivity|exact IH].
Qed.

(** C6 (as it holds on the code).  Read access to a parameter group by a key
    that is not one of its field names raises [KeyError], the code's
    unknown-field error; by a field name it returns the exported form
    ([dataclasses.asdict]) of the field's current value, which is that value
    whenever the value holds no group instance. *)
Theorem getitem_field_or_KeyError (c : cls) (attrs : namespace) (k : key) :
  ((forall n, In n (map fst attrs) -> k <> KStr n) ->
   __getitem__ (VInstance c attrs) k = Raise KeyError) /\
  (forall n v, k = KStr n -> ns_get n attrs = Some v ->
     __getitem__ (VInstance c attrs) k = Ok (asdict_inner v) /\
     (plain v = true -> __getitem__ (VInstance c attrs) k = Ok v)).
Proof.
  unfold __getitem__. cbn [asdict bind]. fold (export attrs).
  rewrite dict_get_export. split.
  - intros Hk. destruct k as [n|y k]; [|reflexivity].
    destruct (ns_get n attrs) as [v|] eqn:E; [|reflexivity].
    apply ns_get_in in E. now destruct (Hk n E).
  - intros n v -> Hv. rewrite Hv. cbn. split; [reflexivity|].
    intros Hp. now rewrite asdict_inner_plain.
Qed.

(** C6 as stated fails on the root: access by ["general"] returns the plain
    mapping exported from the sub-group, not the sub-group instance that is
    the field's value. *)
Lemma getitem_root_returns_export :
  Options_construct "lpy" [] = Ok (default_root "lpy") /\
  attr (default_root "lpy") "general" = Some (defaults "lpy" OptionsGeneral) /\
  __getitem__ (default_root "lpy") (KStr "general")
  = Ok (VDict (export (fields "lpy" OptionsGeneral))) /\
  VDict (export (fields "lpy" OptionsGeneral)) <> defaults "lpy" OptionsGeneral.
Proof. repeat split. discriminate. Qed.

(** ** Reloading a dumped root *)

Lemma keyword_ok_export (names : list string) (attrs : namespace) :
  map fst attrs = names ->
  forallb (keyword_ok names) (dict_keys (export attrs)) = true.
Proof.
  intros <-. apply forallb_forall. intros k Hk.
  unfold dict_keys, export in Hk. rewrite map_map in Hk. cbn [fst] in Hk.
  apply in_map_iff in Hk as [[n v] [<- Hin]]. cbn.
  apply existsb_exists. exists n. split; [|apply String.eqb_refl].
  change n with (fst (n, v)). now apply in_map.
Qed.

Lemma bind_fields_ok (decl : list (string * result pyval)) (kwargs : dict) :
  (forall n d, In (n, d) decl -> exists v, d = Ok v) ->
  exists self, bind_fields decl kwargs = Ok self.
Proof.
  induction decl as [|[n0 d0] decl IH]; intros Hd; cbn.
  - eexists; reflexivity.
  - destruct IH as [self ->]; [intros n d Hin; apply (Hd n d); now right|].
    destruct (Hd n0 d0) as [v0 ->]; [now left|].
    destruct (dict_get (KStr n0) kwargs); cbn; eexists; reflexivity.
Qed.

Lemma field_names_nodup (lpy_path : string) (g : group) :
  NoDup (field_names lpy_path g).
Proof.
  destruct g; cbn; repeat constructor; cbn; intuition discriminate.
Qed.

Section reload.

Variable lpy_path : string.

(** Constructing a group from the export of one of its instances succeeds
    and keeps every scalar field, provided the fate table, if there is one,
    is empty. *)
Lemma construct_export (g : group) (fs : namespace) :
  map fst fs = field_names lpy_path g ->
  (g = OptionsMarkov ->
   ns_get "terminal_fate" fs = Some (VDict []) \/
   ns_get "terminal_fate" fs = Some VNone) ->
  exists fs',
    construct lpy_path g (export fs) = Ok (VInstance (Cls g) fs') /\
    forall f v, ns_get f fs = Some v -> scalar v = true -> ns_get f fs' = Some v.
Proof.
  intros Hnames Hfate. unfold construct, dataclass_init.
  set (decl := map (fun nv => (fst nv, Ok (snd nv))) (fields lpy_path g)).
  assert (Hdecl : map fst decl = field_names lpy_path g)
    by (unfold decl; rewrite map_map; reflexivity).
  rewrite Hdecl, keyword_ok_export by exact Hnames.
  destruct (bind_fields_ok decl (export fs)) as [self Hself].
  { intros n d Hin. apply in_map_iff in Hin as [nv [[= _ <-] _]]. eauto. }
  rewrite Hself. cbn [bind].
  apply bind_fields_get in Hself as [Hself_names Hself];
    [|rewrite Hdecl; apply field_names_nodup].
  assert (Hkeep : forall f v, ns_get f fs = Some v ->
                    ns_get f self = Some (asdict_inner v)).
  { intros f v Hv. assert (Hin : In f (map fst decl)).
    { rewrite Hdecl, <- Hnames. exact (ns_get_in _ _ _ Hv). }
    apply in_map_iff in Hin as [[f' d] [E Hin]]. cbn in E. subst f'.
    destruct (Hself f d Hin) as (v' & Hv' & Hkw).
    rewrite dict_get_export, Hv in Hkw. cbn in Hkw. now subst v'. }
  assert (Hscalar : forall f v, ns_get f fs = Some v -> scalar v = true ->
                      ns_get f self = Some v).
  { intros f v Hv Hs. rewrite (Hkeep f v Hv).
    now rewrite asdict_inner_plain by now apply scalar_plain. }
  destruct g; try (exists self; split; [reflexivity|exact Hscalar]).
  assert (Hnorm : exists fate,
             ns_get "terminal_fate" fs = Some fate /\ scalar fate = false /\
             normalize (asdict_inner fate) = Ok fate).
  { destruct (Hfate eq_refl) as [H|H]; eexists; (split; [exact H|split; reflexivity]). }
  destruct Hnorm as (fate & Hget & Hns & Hnorm).
  exists (setattr self "terminal_fate" fate). split.
  - cbn [__post_init__]. unfold OptionsMarkov__post_init__, getattr.
    rewrite (Hkeep _ _ Hget). cbn [bind]. rewrite Hnorm. reflexivity.
  - intros f v Hv Hs. rewrite ns_get_setattr.
    destruct (String.eqb f "terminal_fate") eqn:E; [|now apply Hscalar].
    apply String.eqb_eq in E. subst f. congruence.
Qed.

Lemma coerce_all_ok (fs : list (string * group)) : forall self : namespace,
  NoDup (map fst fs) ->
  (forall n g, In (n, g) fs ->
     exists v v', ns_get n self = Some v /\ _make_dataclass lpy_path g v = Ok v') ->
  exists self', coerce_all lpy_path fs self = Ok self'.
Proof.
  induction fs as [|[n0 g0] fs IH]; intros self Hnd Hfs; cbn.
  - eexists; reflexivity.
  - inversion Hnd as [|? ? Hn0 Hnd']; subst.
    destruct (Hfs n0 g0) as (v0 & v0' & Hv0 & Hmk); [now left|].
    unfold coerce, getattr. rewrite Hv0. cbn [bind]. rewrite Hmk. cbn [bind].
    apply IH; [exact Hnd'|]. intros n g Hin.
    destruct (Hfs n g) as (v & v' & Hv & Hmk'); [now right|].
    exists v, v'. split; [|exact Hmk']. rewrite ns_get_setattr.
    destruct (String.eqb n n0) eqn:E; [|exact Hv].
    apply String.eqb_eq in E. subst n0. exfalso. apply Hn0.
    change n with (fst (n, g)). now apply in_map.
Qed.

(** [Options( **kwargs)] succeeds when every keyword is a field and
    [_make_dataclass] accepts every entry. *)
Lemma Options_construct_ok (kwargs : dict) :
  forallb (keyword_ok (map fst Options_fields)) (dict_keys kwargs) = true ->
  (forall n g, In (n, g) Options_fields ->
     exists v', _make_dataclass lpy_path g
                  match dict_get (KStr n) kwargs with
                  | Some w => w
                  | None => defaults lpy_path g
                  end = Ok v') ->
  exists root, Options_construct lpy_path kwargs = Ok root.
Proof.
  intros Hkw Hmk. unfold Options_construct, dataclass_init.
  set (decl := map (fun ng => (fst ng, construct lpy_path (snd ng) [])) Options_fields).
  assert (Hdecl : map fst decl = map fst Options_fields)
    by (unfold decl; rewrite map_map; reflexivity).
  rewrite Hdecl, Hkw.
  destruct (bind_fields_ok decl kwargs) as [self Hself].
  { intros n d Hin. apply in_map_iff in Hin as [ng [[= _ <-] _]].
    rewrite construct_defaults. eauto. }
  rewrite Hself. cbn [bind]. rewrite Options__post_init___loop.
  apply bind_fields_get in Hself as [_ Hself];
    [|rewrite Hdecl; exact Options_fields_nodup].
  destruct (coerce_all_ok Options_fields self Options_fields_nodup) as [attrs ->].
  - intros n g Hin. destruct (Hself n (construct lpy_path g [])) as (v & Hv & Hd).
    { apply in_map_iff. now exists (n, g). }
    destruct (Hmk n g Hin) as [v' Hv']. exists v, v'. split; [exact Hv|].
    destruct (dict_get (KStr n) kwargs); [now subst|].
    rewrite construct_defaults in Hd. now injection Hd as <-.
  - cbn. eexists; reflexivity.
Qed.

Lemma Options_fields_markov (n : string) :
  In (n, OptionsMarkov) Options_fields -> n = "markov".
Proof.
  intros Hin. cbn in Hin.
  repeat (destruct Hin as [Hin|Hin]; [now inversion Hin|]). destruct Hin.
Qed.


End reload.

Lemma default_root_wf : wf_root "lpy" (default_root "lpy").
Proof.
  eexists. split; [reflexivity|]. split; [reflexivity|].
  intros n g Hin. cbn in Hin.
  repeat (destruct Hin as [[= <- <-]|Hin];
          [eexists; split; [reflexivity|eexists; split; reflexivity]|]).
  destruct Hin.
Qed.




(** ** Rounding of binary floating-point operations

    [SpecFloat] specifies the primitive operations; what follows relates its
    rounding to the real value being rounded, and derives that rounding is
    monotone. *)

Section rounding.

Variables prec emax : Z.
Hypothesis Hprec : (0 < prec)%Z.

Local Abbreviation emin := (SpecFloat.emin prec emax).
Local Abbreviation fexp := (SpecFloat.fexp prec emax).

Local Open Scope R_scope.

Lemma bpow_gt_0 (e : Z) : 0 < bpow e.
Proof. apply powerRZ_lt. lra. Qed.

Lemma bpow_add (a b : Z) : bpow (a + b) = bpow a * bpow b.
Proof. apply powerRZ_add. lra. Qed.

Lemma bpow_succ (e : Z) : bpow (e + 1) = 2 * bpow e.
Proof.
  rewrite bpow_add. replace (bpow 1) with 2; [lra|].
  unfold bpow, powerRZ. simpl. lra.
Qed.

Lemma bpow_nonneg_IZR (k : Z) : (0 <= k)%Z -> bpow k = IZR (2 ^ k).
Proof.
  intros Hk. pattern k. apply natlike_ind; [reflexivity| |exact Hk].
  intros n Hn IH. rewrite Z.pow_succ_r by exact Hn.
  rewrite mult_IZR, <- IH, <- bpow_succ. reflexivity.
Qed.

Lemma bpow_le (a b : Z) : (a <= b)%Z -> bpow a <= bpow b.
Proof.
  intros H. replace b with (a + (b - a))%Z by lia. rewrite bpow_add.
  rewrite (bpow_nonneg_IZR (b - a)) by lia.
  assert (1 <= IZR (2 ^ (b - a)))
    by (apply IZR_le; pose proof (Z.pow_pos_nonneg 2 (b - a)); lia).
  pose proof (bpow_gt_0 a). nra.
Qed.

Lemma bpow_lt (a b : Z) : (a < b)%Z -> bpow a < bpow b.
Proof.
  intros H. apply Rlt_le_trans with (bpow (a + 1)).
  - rewrite bpow_succ. pose proof (bpow_gt_0 a). lra.
  - apply bpow_le. lia.
Qed.

Lemma bpow_lt_inv (a b : Z) : bpow a < bpow b -> (a < b)%Z.
Proof.
  intros H. destruct (Z_lt_le_dec a b) as [Hlt|Hle]; [exact Hlt|].
  apply bpow_le in Hle. lra.
Qed.

Lemma digits2_pos_bounds (p : positive) :
  (2 ^ (Zpos (digits2_pos p) - 1) <= Zpos p < 2 ^ Zpos (digits2_pos p))%Z.
Proof.
  induction p as [p IH|p IH|]; cbn [digits2_pos]; rewrite ?Pos2Z.inj_succ.
  - replace (Z.succ (Zpos (digits2_pos p)) - 1)%Z
      with (Z.succ (Zpos (digits2_pos p) - 1)) by lia.
    rewrite !Z.pow_succ_r by lia. lia.
  - replace (Z.succ (Zpos (digits2_pos p)) - 1)%Z
      with (Z.succ (Zpos (digits2_pos p) - 1)) by lia.
    rewrite !Z.pow_succ_r by lia. lia.
  - cbn. lia.
Qed.

Lemma Zdigits2_upper (m : Z) : (0 <= m)%Z -> IZR (m + 1) <= bpow (Zdigits2 m).
Proof.
  intros Hm. destruct m as [|p|p]; [cbn; unfold bpow; cbn; lra| |lia].
  cbn [Zdigits2]. rewrite bpow_nonneg_IZR by lia. apply IZR_le.
  pose proof (digits2_pos_bounds p). lia.
Qed.

Lemma Zdigits2_lower (m : Z) : (0 < m)%Z -> bpow (Zdigits2 m - 1) <= IZR m.
Proof.
  intros Hm. destruct m as [|p|p]; [lia| |lia].
  cbn [Zdigits2]. rewrite bpow_nonneg_IZR by lia. apply IZR_le.
  pose proof (digits2_pos_bounds p). lia.
Qed.

Lemma placed_shr_1 (u : R) (mrs : shr_record) :
  (0 <= shr_m mrs)%Z ->
  placed u (shr_m mrs) (loc_of_shr_record mrs) ->
  placed (u / 2) (shr_m (shr_1 mrs)) (loc_of_shr_record (shr_1 mrs)) /\
  (0 <= shr_m (shr_1 mrs))%Z.
Proof.
  destruct mrs as [m r s]. cbn [shr_m]. intros Hm.
  destruct m as [|[p|p|]|p]; [| | | |exfalso; exact (Hm eq_refl)];
    destruct r, s;
    cbn [shr_1 loc_of_shr_record placed shr_m orb];
    try rewrite (IZR_POS_xO p); try rewrite (IZR_POS_xI p); intros H;
    (split; [lra|apply Pos2Z.is_nonneg || apply Z.le_refl]).
Qed.

Lemma located_shr_1 (x : R) (e : Z) (mrs : shr_record) :
  (0 <= shr_m mrs)%Z ->
  located x (shr_m mrs) e (loc_of_shr_record mrs) ->
  located x (shr_m (shr_1 mrs)) (e + 1) (loc_of_shr_record (shr_1 mrs)) /\
  (0 <= shr_m (shr_1 mrs))%Z.
Proof.
  unfold located. intros Hm H. rewrite bpow_succ.
  replace (x / (2 * bpow e)) with (x / bpow e / 2).
  - now apply placed_shr_1.
  - pose proof (bpow_gt_0 e). field. lra.
Qed.

Lemma located_bounds (x : R) (m e : Z) (l : location) :
  located x m e l -> IZR m * bpow e <= x < (IZR m + 1) * bpow e.
Proof.
  unfold located. pose proof (bpow_gt_0 e) as He.
  assert (Hx : x = x / bpow e * bpow e) by (field; lra).
  set (u := x / bpow e) in *. intros H.
  assert (Hu : IZR m <= u < IZR m + 1) by (destruct l as [|c]; cbn in H; lra).
  rewrite Hx. split.
  - apply Rmult_le_compat_r; lra.
  - apply Rmult_lt_compat_r; lra.
Qed.
Lemma located_shr_iter (p : positive) : forall (x : R) (e : Z) (mrs : shr_record),
  (0 <= shr_m mrs)%Z ->
  located x (shr_m mrs) e (loc_of_shr_record mrs) ->
  located x (shr_m (SpecFloat.iter_pos shr_1 p mrs)) (e + Zpos p)
    (loc_of_shr_record (SpecFloat.iter_pos shr_1 p mrs)) /\
  (0 <= shr_m (SpecFloat.iter_pos shr_1 p mrs))%Z.
Proof.
  induction p as [p IH|p IH|]; intros x e mrs Hm Hl; cbn [SpecFloat.iter_pos].
  - destruct (located_shr_1 x e mrs Hm Hl) as [H1 Hm1].
    destruct (IH _ _ _ Hm1 H1) as [H2 Hm2].
    destruct (IH _ _ _ Hm2 H2) as [H3 Hm3].
    split; [|exact Hm3].
    replace (e + Zpos p~1)%Z with (e + 1 + Zpos p + Zpos p)%Z by lia. exact H3.
  - destruct (IH _ _ _ Hm Hl) as [H2 Hm2].
    destruct (IH _ _ _ Hm2 H2) as [H3 Hm3].
    split; [|exact Hm3].
    replace (e + Zpos p~0)%Z with (e + Zpos p + Zpos p)%Z by lia. exact H3.
  - exact (located_shr_1 x e mrs Hm Hl).
Qed.

Lemma shr_record_of_loc_m (m : Z) (l : location) :
  shr_m (shr_record_of_loc m l) = m.
Proof. now destruct l as [|[]]. Qed.

Lemma shr_record_of_loc_loc (m : Z) (l : location) :
  loc_of_shr_record (shr_record_of_loc m l) = l.
Proof. now destruct l as [|[]]. Qed.

Lemma first_stage (x : R) (m e : Z) (l : location) :
  (0 <= m)%Z -> located x m e l -> (e <= fexp (Zdigits2 m + e))%Z ->
  exists mrs t,
    shr_fexp prec emax m e l = (mrs, t) /\
    staged prec emax x (shr_m mrs) t (loc_of_shr_record mrs).
Proof.
  intros Hm Hl He. unfold shr_fexp, shr.
  set (t := fexp (Zdigits2 m + e)) in *.
  assert (Hbounds := located_bounds _ _ _ _ Hl).
  pose proof (bpow_gt_0 e) as Hpe.
  assert (Hx_up : x < bpow (t + prec)).
  { apply Rlt_le_trans with (bpow (Zdigits2 m + e)).
    - rewrite bpow_add. pose proof (Zdigits2_upper m Hm) as Hd.
      rewrite plus_IZR in Hd. nra.
    - apply bpow_le. unfold t, SpecFloat.fexp. lia. }
  assert (Hx_low : (emin < t)%Z -> bpow (t + prec - 1) <= x).
  { intros Ht. assert (Hm0 : (0 < m)%Z).
    { destruct (Z.eq_dec m 0) as [->|]; [|lia].
      cbn [Zdigits2] in t. unfold t, SpecFloat.fexp in *. lia. }
    replace (t + prec - 1)%Z with (Zdigits2 m - 1 + e)%Z
      by (unfold t, SpecFloat.fexp in *; lia).
    rewrite bpow_add. pose proof (Zdigits2_lower m Hm0). nra. }
  assert (Ht_min : (emin <= t)%Z) by (unfold t, SpecFloat.fexp; lia).
  rewrite <- (shr_record_of_loc_m m l) in Hm, Hl.
  rewrite <- (shr_record_of_loc_loc m l) in Hl at 2.
  clearbody t.
  destruct (t - e)%Z as [|p|p] eqn:En; try lia.
  - assert (t = e) by lia. subst t.
    exists (shr_record_of_loc m l), e. split; [reflexivity|].
    repeat split; assumption.
  - assert (t = e + Zpos p)%Z by lia. subst t.
    destruct (located_shr_iter p _ _ _ Hm Hl) as [H1 Hm1].
    exists (SpecFloat.iter_pos shr_1 p (shr_record_of_loc m l)), (e + Zpos p)%Z.
    split; [reflexivity|]. repeat split; assumption.
Qed.

Lemma binary_round_aux_finish (m e : Z) (l : location) :
  binary_round_aux prec emax false m e l
  = let '(mrs, t) := shr_fexp prec emax m e l in
    finish prec emax (round_nearest_even (shr_m mrs) (loc_of_shr_record mrs)) t.
Proof.
  unfold binary_round_aux, finish. destruct (shr_fexp prec emax m e l) as [mrs t].
  reflexivity.
Qed.

Lemma Zdigits2_le_prec (m : Z) :
  (0 < m < 2 ^ prec)%Z -> (Zdigits2 m <= prec)%Z.
Proof.
  intros [Hm Hlt]. destruct m as [|p|p]; try lia. cbn [Zdigits2].
  pose proof (digits2_pos_bounds p) as [Hlow _].
  assert (H : (2 ^ (Zpos (digits2_pos p) - 1) < 2 ^ prec)%Z) by lia.
  apply Z.pow_lt_mono_r_iff in H; lia.
Qed.

Lemma Zdigits2_pow (k : Z) : (0 <= k)%Z -> Zdigits2 (2 ^ k) = (k + 1)%Z.
Proof.
  intros Hk. pose proof (Z.pow_pos_nonneg 2 k) as Hpos.
  destruct (2 ^ k)%Z as [|p|p] eqn:E; try lia. cbn [Zdigits2].
  pose proof (digits2_pos_bounds p) as [Hlow Hup]. rewrite <- E in Hlow, Hup.
  apply Z.pow_le_mono_r_iff in Hlow; try lia.
  apply Z.pow_lt_mono_r_iff in Hup; lia.
Qed.

Lemma finish_zero (t : Z) : (emin <= t)%Z -> finish prec emax 0 t = S754_zero false.
Proof.
  intros Ht. unfold finish, shr_fexp, shr. cbn [Zdigits2 shr_record_of_loc].
  destruct (fexp (0 + t) - t)%Z eqn:E; try reflexivity.
  unfold SpecFloat.fexp in E. lia.
Qed.

Lemma finish_small (p : positive) (t : Z) :
  (emin <= t)%Z -> (Zpos p < 2 ^ prec)%Z ->
  finish prec emax (Zpos p) t
  = if (t <=? emax - prec)%Z then S754_finite false p t else S754_infinity false.
Proof.
  intros Ht Hp. unfold finish, shr_fexp, shr.
  assert (Hd : (Zdigits2 (Zpos p) <= prec)%Z) by (apply Zdigits2_le_prec; lia).
  destruct (fexp (Zdigits2 (Zpos p) + t) - t)%Z eqn:E; try reflexivity.
  unfold SpecFloat.fexp in E. lia.
Qed.

Lemma finish_carry (t : Z) :
  (emin <= t)%Z ->
  finish prec emax (2 ^ prec) t
  = if (t + 1 <=? emax - prec)%Z
    then S754_finite false (Z.to_pos (2 ^ (prec - 1))) (t + 1)
    else S754_infinity false.
Proof.
  intros Ht. unfold finish, shr_fexp, shr.
  rewrite Zdigits2_pow by lia.
  replace (fexp (prec + 1 + t) - t)%Z with 1%Z by (unfold SpecFloat.fexp; lia).
  cbn [SpecFloat.iter_pos shr_record_of_loc].
  replace (2 ^ prec)%Z with (2 * 2 ^ (prec - 1))%Z
    by (rewrite <- Z.pow_succ_r by lia; f_equal; lia).
  pose proof (Z.pow_pos_nonneg 2 (prec - 1)) as Hpos.
  destruct (2 ^ (prec - 1))%Z as [|q|q] eqn:E; try lia.
  reflexivity.
Qed.

Lemma SFleb_finite (p q : positive) (e e' : Z) :
  (e < e')%Z \/ (e = e' /\ (Zpos p <= Zpos q)%Z) ->
  SFleb (S754_finite false p e) (S754_finite false q e') = true.
Proof.
  unfold SFleb, SFcompare. intros [Hlt|[-> Hle]].
  - apply Z.compare_lt_iff in Hlt. now rewrite Hlt.
  - rewrite Z.compare_refl. change (Pos.compare_cont Eq p q) with (Pos.compare p q).
    destruct (Pos.compare_spec p q) as [?|?|Hgt]; try reflexivity. lia.
Qed.

(** The mantissa shapes [finish] distinguishes. *)
Lemma mantissa_cases (m : Z) :
  (0 <= m <= 2 ^ prec)%Z ->
  m = 0%Z \/ (exists p, m = Zpos p /\ (Zpos p < 2 ^ prec)%Z) \/ m = (2 ^ prec)%Z.
Proof.
  intros Hm. destruct (Z.eq_dec m (2 ^ prec)) as [->|Hne]; [now right; right|].
  destruct m as [|p|p]; [now left| |lia].
  right; left. exists p. split; [reflexivity|lia].
Qed.

Lemma finish_le (m t m' t' : Z) :
  (emin <= t)%Z -> (emin <= t')%Z ->
  (0 <= m <= 2 ^ prec)%Z -> (0 <= m' <= 2 ^ prec)%Z ->
  (t = t' /\ (m <= m')%Z) \/ ((t < t')%Z /\ (2 ^ (prec - 1) <= m')%Z) ->
  SFleb (finish prec emax m t) (finish prec emax m' t') = true.
Proof.
  intros Ht Ht' Hm Hm' Hord.
  pose proof (Z.pow_pos_nonneg 2 (prec - 1)) as Hhalf.
  assert (Hdbl : (2 ^ prec = 2 * 2 ^ (prec - 1))%Z)
    by (rewrite <- Z.pow_succ_r by lia; f_equal; lia).
  assert (Hid : Zpos (Z.to_pos (2 ^ (prec - 1))) = (2 ^ (prec - 1))%Z)
    by (apply Z2Pos.id; lia).
  destruct (mantissa_cases m Hm) as [->|[(p & -> & Hp)| ->]];
    destruct (mantissa_cases m' Hm') as [->|[(q & -> & Hq)| ->]];
    rewrite ?finish_zero, ?finish_small, ?finish_carry by assumption;
    repeat match goal with
           | |- context [(?a <=? ?b)%Z] => destruct (Z.leb_spec a b)
           end;
    try reflexivity; try lia;
    try (apply SFleb_finite; lia).
Qed.

Lemma round_nearest_even_bounds (m : Z) (l : location) :
  (m <= round_nearest_even m l <= m + 1)%Z.
Proof.
  destruct l as [|[]]; cbn; try lia. destruct (Z.even m); lia.
Qed.

Lemma staged_mantissa_lt (x : R) (m t : Z) (l : location) :
  staged prec emax x m t l -> (m < 2 ^ prec)%Z.
Proof.
  intros (Hl & Hm & Ht & Hup & _). apply located_bounds in Hl as [Hlow _].
  rewrite bpow_add, (bpow_nonneg_IZR prec) in Hup by lia.
  pose proof (bpow_gt_0 t) as Hpt. apply lt_IZR.
  apply Rmult_lt_reg_r with (bpow t); [exact Hpt|]. lra.
Qed.

Lemma staged_mantissa_ge (x : R) (m t : Z) (l : location) :
  staged prec emax x m t l -> (emin < t)%Z -> (2 ^ (prec - 1) <= m)%Z.
Proof.
  intros (Hl & Hm & Ht & _ & Hlow) Hlt. specialize (Hlow Hlt).
  apply located_bounds in Hl as [_ Hup].
  replace (t + prec - 1)%Z with (prec - 1 + t)%Z in Hlow by lia.
  rewrite bpow_add, (bpow_nonneg_IZR (prec - 1)) in Hlow by lia.
  pose proof (bpow_gt_0 t) as Hpt.
  assert (H : IZR (2 ^ (prec - 1)) < IZR (m + 1)).
  { rewrite plus_IZR. apply Rmult_lt_reg_r with (bpow t); [exact Hpt|]. lra. }
  apply lt_IZR in H. lia.
Qed.

(** Rounding to nearest even is monotone within one binade step. *)
Lemma round_nearest_even_placed (u u' : R) (m : Z) (l l' : location) :
  placed u m l -> placed u' m l' -> u <= u' ->
  (round_nearest_even m l <= round_nearest_even m l')%Z.
Proof.
  intros H H' Hu.
  destruct l as [|[]], l' as [|[]]; cbn in *;
    try destruct (Z.even m); try lia; exfalso; lra.
Qed.

(** Monotonicity of rounding, on staged values. *)
Lemma staged_le (x y : R) (m t m' t' : Z) (l l' : location) :
  staged prec emax x m t l -> staged prec emax y m' t' l' -> x <= y ->
  SFleb (finish prec emax (round_nearest_even m l) t) (finish prec emax (round_nearest_even m' l') t')
  = true.
Proof.
  intros Hx Hy Hxy.
  pose proof (staged_mantissa_lt _ _ _ _ Hx) as Hm.
  pose proof (staged_mantissa_lt _ _ _ _ Hy) as Hm'.
  pose proof (round_nearest_even_bounds m l) as Hr.
  pose proof (round_nearest_even_bounds m' l') as Hr'.
  pose proof Hx as (Hl & Hm0 & Ht & Hup & Hlow).
  pose proof Hy as (Hl' & Hm0' & Ht' & Hup' & Hlow').
  apply finish_le; try lia.
  destruct (Z.lt_trichotomy t t') as [Hlt|[Heq|Hgt]].
  - right. split; [exact Hlt|].
    pose proof (staged_mantissa_ge _ _ _ _ Hy). lia.
  - left. split; [exact Heq|]. subst t'.
    pose proof (located_bounds _ _ _ _ Hl) as [Hxl Hxu].
    pose proof (located_bounds _ _ _ _ Hl') as [Hyl Hyu].
    pose proof (bpow_gt_0 t) as Hpt.
    assert (Hmm : (m < m' + 1)%Z).
    { apply lt_IZR. rewrite plus_IZR.
      apply Rmult_lt_reg_r with (bpow t); [exact Hpt|]. lra. }
    destruct (Z.eq_dec m m') as [<-|Hne]; [|lia].
    apply (round_nearest_even_placed (x / bpow t) (y / bpow t)); try assumption.
    unfold Rdiv. apply Rmult_le_compat_r; [|exact Hxy].
    apply Rlt_le, Rinv_0_lt_compat, Hpt.
  - exfalso. assert (Hlt : (emin < t)%Z) by lia. specialize (Hlow Hlt).
    assert (H : bpow (t + prec - 1) < bpow (t' + prec)) by lra.
    apply bpow_lt_inv in H. lia.
Qed.

Lemma finish_nonneg (m t : Z) :
  (emin <= t)%Z -> (0 <= m <= 2 ^ prec)%Z -> nonneg (finish prec emax m t).
Proof.
  intros Ht Hm.
  destruct (mantissa_cases m Hm) as [->|[(p & -> & Hp)| ->]];
    rewrite ?finish_zero, ?finish_small, ?finish_carry by assumption;
    repeat match goal with
           | |- context [(?a <=? ?b)%Z] => destruct (Z.leb_spec a b)
           end; exact I.
Qed.

Lemma round_nonneg (x : R) (m e : Z) (l : location) :
  roundable prec emax x m e l -> nonneg (binary_round_aux prec emax false m e l).
Proof.
  intros (Hm & Hl & He). rewrite binary_round_aux_finish.
  destruct (first_stage x m e l Hm Hl He) as (mrs & t & -> & Hs).
  pose proof (staged_mantissa_lt _ _ _ _ Hs).
  pose proof (round_nearest_even_bounds (shr_m mrs) (loc_of_shr_record mrs)).
  destruct Hs as (_ & ? & ? & _). apply finish_nonneg; lia.
Qed.

(** Rounding is monotone. *)
Lemma round_le (x y : R) (m e m' e' : Z) (l l' : location) :
  roundable prec emax x m e l -> roundable prec emax y m' e' l' -> x <= y ->
  SFleb (binary_round_aux prec emax false m e l)
        (binary_round_aux prec emax false m' e' l') = true.
Proof.
  intros (Hm & Hl & He) (Hm' & Hl' & He') Hxy. rewrite !binary_round_aux_finish.
  destruct (first_stage x m e l Hm Hl He) as (mrs & t & -> & Hs).
  destruct (first_stage y m' e' l' Hm' Hl' He') as (mrs' & t' & -> & Hs').
  now apply staged_le with x y.
Qed.

Lemma F2R_gt_0 (m : positive) (e : Z) : 0 < F2R m e.
Proof.
  unfold F2R. apply Rmult_lt_0_compat; [now apply IZR_lt|apply bpow_gt_0].
Qed.

(** A canonical number is roundable as it stands, and rounds to itself. *)
Lemma canonical_roundable (m : positive) (e : Z) :
  SpecFloat.bounded prec emax m e = true -> roundable prec emax (F2R m e) (Zpos m) e loc_Exact.
Proof.
  unfold SpecFloat.bounded, canonical_mantissa. intros H.
  apply andb_true_iff in H as [Hc _]. apply Z.eqb_eq in Hc.
  repeat split; [lia| |cbn [Zdigits2]; lia].
  unfold located, placed, F2R. pose proof (bpow_gt_0 e). field. lra.
Qed.

Lemma canonical_round (m : positive) (e : Z) :
  SpecFloat.bounded prec emax m e = true ->
  binary_round_aux prec emax false (Zpos m) e loc_Exact = S754_finite false m e.
Proof.
  unfold SpecFloat.bounded, canonical_mantissa. intros H.
  apply andb_true_iff in H as [Hc Hb]. apply Z.eqb_eq in Hc. apply Z.leb_le in Hb.
  rewrite binary_round_aux_finish. unfold shr_fexp, shr. cbn [Zdigits2].
  rewrite Hc, Z.sub_diag. cbn [shr_record_of_loc shr_m loc_of_shr_record round_nearest_even].
  rewrite finish_small.
  - apply Z.leb_le in Hb. now rewrite Hb.
  - unfold SpecFloat.fexp in Hc. lia.
  - pose proof (digits2_pos_bounds m) as [_ Hup].
    apply Z.lt_le_trans with (1 := Hup). apply Z.pow_le_mono_r; [lia|].
    unfold SpecFloat.fexp in Hc. lia.
Qed.

Lemma F2R_upper (m : positive) (e : Z) :
  F2R m e < bpow (Zpos (digits2_pos m) + e).
Proof.
  unfold F2R. rewrite bpow_add. pose proof (bpow_gt_0 e).
  apply Rmult_lt_compat_r; [assumption|].
  apply Rlt_le_trans with (IZR (Zpos m + 1)); [apply IZR_lt; lia|].
  apply (Zdigits2_upper (Zpos m)). lia.
Qed.

Lemma F2R_lower (m : positive) (e : Z) :
  bpow (Zpos (digits2_pos m) - 1 + e) <= F2R m e.
Proof.
  unfold F2R. rewrite bpow_add. pose proof (bpow_gt_0 e).
  apply Rmult_le_compat_r; [lra|]. apply (Zdigits2_lower (Zpos m)). lia.
Qed.

(** On canonical numbers [SFleb] is the order of the values. *)
Lemma SFleb_F2R (m : positive) (e : Z) (m' : positive) (e' : Z) :
  SpecFloat.bounded prec emax m e = true ->
  SpecFloat.bounded prec emax m' e' = true ->
  SFleb (S754_finite false m e) (S754_finite false m' e') = true ->
  F2R m e <= F2R m' e'.
Proof.
  unfold SpecFloat.bounded, canonical_mantissa. intros H H'.
  apply andb_true_iff in H as [Hc _]. apply Z.eqb_eq in Hc.
  apply andb_true_iff in H' as [Hc' _]. apply Z.eqb_eq in Hc'.
  unfold SFleb, SFcompare. destruct (Z.compare_spec e e') as [->|Hlt|Hgt];
    [|intros _|discriminate].
  - change (Pos.compare_cont Eq m m') with (Pos.compare m m').
    destruct (Pos.compare_spec m m') as [->|Hlt|Hgt]; try discriminate; intros _.
    + lra.
    + unfold F2R. pose proof (bpow_gt_0 e'). apply Rmult_le_compat_r; [lra|].
      apply IZR_le. lia.
  - apply Rlt_le. apply Rlt_le_trans with (1 := F2R_upper m e).
    apply Rle_trans with (2 := F2R_lower m' e'). apply bpow_le.
    unfold SpecFloat.fexp in *. lia.
Qed.

(** The exact product, as [SFmul] hands it to the rounding. *)
Lemma mul_roundable (m : positive) (e : Z) (m' : positive) (e' : Z) :
  (2 ^ (prec - 1) <= Zpos m)%Z ->
  roundable prec emax (F2R m e * F2R m' e') (Zpos (m * m')) (e + e') loc_Exact.
Proof.
  intros Hm. repeat split; [lia| |].
  - unfold located, placed, F2R. rewrite Pos2Z.inj_mul, mult_IZR, bpow_add.
    pose proof (bpow_gt_0 e). pose proof (bpow_gt_0 e'). field. lra.
  - cbn [Zdigits2]. pose proof (digits2_pos_bounds (m * m')) as [_ Hup].
    assert (H : (2 ^ (prec - 1) < 2 ^ Zpos (digits2_pos (m * m')))%Z) by nia.
    apply Z.pow_lt_mono_r_iff in H; [|lia|lia].
    unfold SpecFloat.fexp. lia.
Qed.

Lemma frac_placed (q r d : Z) (l : comparison) :
  (0 < r < d)%Z ->
  match l with
  | Lt => (2 * r < d)%Z
  | Eq => (2 * r = d)%Z
  | Gt => (d < 2 * r)%Z
  end ->
  placed (IZR q + IZR r / IZR d) q (loc_Inexact l).
Proof.
  intros Hr Hl. assert (Hd : 0 < IZR d) by (apply IZR_lt; lia).
  assert (Hr0 : 0 < IZR r) by (apply IZR_lt; lia).
  assert (Hrd : IZR r < IZR d) by (apply IZR_lt; lia).
  set (w := IZR r / IZR d).
  assert (Hw : w * IZR d = IZR r) by (unfold w; field; lra).
  assert (Hw0 : 0 < w) by (apply Rdiv_lt_0_compat; assumption).
  assert (Hw1 : w < 1).
  { apply Rmult_lt_reg_r with (IZR d); [exact Hd|]. lra. }
  cbn [placed]. split; [lra|].
  destruct l.
  - assert (H : 2 * IZR r = IZR d) by (rewrite <- mult_IZR; now f_equal).
    assert (w = / 2); [|lra].
    apply Rmult_eq_reg_r with (IZR d); [|lra]. lra.
  - assert (H : 2 * IZR r < IZR d) by (rewrite <- mult_IZR; now apply IZR_lt).
    assert (w < / 2); [|lra].
    apply Rmult_lt_reg_r with (IZR d); [exact Hd|]. lra.
  - assert (H : IZR d < 2 * IZR r) by (rewrite <- mult_IZR; now apply IZR_lt).
    assert (/ 2 < w); [|lra].
    apply Rmult_lt_reg_r with (IZR d); [exact Hd|]. lra.
Qed.

Lemma new_location_placed (q r d : Z) :
  (0 <= r < d)%Z ->
  placed (IZR q + IZR r / IZR d) q (new_location d r).
Proof.
  intros Hr. unfold new_location, new_location_even, new_location_odd.
  assert (Hexact : r = 0%Z -> placed (IZR q + IZR r / IZR d) q loc_Exact).
  { intros ->. cbn [placed]. unfold Rdiv. lra. }
  destruct (Z.even d) eqn:Heven; destruct (Z.eqb_spec r 0) as [Hr0|Hr0]; auto.
  - apply frac_placed; [lia|]. destruct (Z.compare_spec (2 * r) d); assumption.
  - assert (Hodd : Z.odd d = true) by (rewrite <- Z.negb_even, Heven; reflexivity).
    apply Z.odd_spec in Hodd as [k Hk].
    destruct (Z.compare_spec (2 * r + 1) d); apply frac_placed; lia.
Qed.

(** The quotient, as [SFdiv] hands it to the rounding. *)
Lemma div_roundable (m : positive) (e : Z) (m' : positive) (e' : Z) :
  let '(q, t, l) := SFdiv_core_binary prec emax (Zpos m) e (Zpos m') e' in
  roundable prec emax (F2R m e / F2R m' e') q t l.
Proof.
  unfold SFdiv_core_binary. cbn [Zdigits2].
  set (d := Zpos (digits2_pos m)). set (d' := Zpos (digits2_pos m')).
  set (t := Z.min (fexp (d + e - (d' + e'))) (e - e')).
  set (s := (e - e' - t)%Z).
  assert (Hs : (0 <= s)%Z) by (unfold s, t; lia).
  set (n := match s with
            | Zpos _ => Z.shiftl (Zpos m) s
            | Z0 => Zpos m
            | Zneg _ => 0%Z
            end).
  assert (Hn : n = (Zpos m * 2 ^ s)%Z).
  { unfold n. destruct s as [|p|p] eqn:Es; [lia| |lia].
    rewrite Z.shiftl_mul_pow2 by lia. reflexivity. }
  clearbody n. subst n.
  pose proof (Z_div_mod (Zpos m * 2 ^ s) (Zpos m') eq_refl) as Hdiv.
  destruct (Z.div_eucl (Zpos m * 2 ^ s) (Zpos m')) as [q r].
  destruct Hdiv as [Hqr Hr].
  pose proof (Z.pow_pos_nonneg 2 s) as Hpow.
  assert (Hq : (0 <= q)%Z) by nia.
  pose proof (bpow_gt_0 e) as Hpe. pose proof (bpow_gt_0 e') as Hpe'.
  pose proof (bpow_gt_0 t) as Hpt.
  assert (Hm' : 0 < IZR (Zpos m')) by (now apply IZR_lt).
  assert (Hu : F2R m e / F2R m' e' / bpow t = IZR q + IZR r / IZR (Zpos m')).
  { assert (He : bpow e = bpow s * bpow e' * bpow t).
    { rewrite <- !bpow_add. f_equal. unfold s. lia. }
    assert (Hz : IZR (Zpos m) * bpow s = IZR (Zpos m') * IZR q + IZR r).
    { rewrite (bpow_nonneg_IZR s), <- !mult_IZR, <- plus_IZR by exact Hs.
      now f_equal. }
    unfold F2R. rewrite He.
    replace (IZR (Zpos m) * (bpow s * bpow e' * bpow t) / (IZR (Zpos m') * bpow e') / bpow t)
      with (IZR (Zpos m) * bpow s / IZR (Zpos m')) by (field; lra).
    rewrite Hz. field. lra. }
  assert (Hl : located (F2R m e / F2R m' e') q t (new_location (Zpos m') r)).
  { unfold located. rewrite Hu. now apply new_location_placed. }
  repeat split; [exact Hq|exact Hl|].
  apply located_bounds in Hl as [_ Hup].
  assert (Hlow : bpow (d - 1 + e - (d' + e')) < F2R m e / F2R m' e').
  { pose proof (F2R_lower m e) as Ha. pose proof (F2R_upper m' e') as Hb.
    fold d in Ha. fold d' in Hb. pose proof (F2R_gt_0 m' e') as Hb0.
    replace (d - 1 + e - (d' + e'))%Z with ((d - 1 + e) + - (d' + e'))%Z by lia.
    rewrite bpow_add. unfold bpow at 2. rewrite powerRZ_neg'. fold (bpow (d' + e')).
    apply Rle_lt_trans with (F2R m e * / bpow (d' + e')).
    - apply Rmult_le_compat_r; [|exact Ha].
      apply Rlt_le, Rinv_0_lt_compat, bpow_gt_0.
    - unfold Rdiv. apply Rmult_lt_compat_l; [apply F2R_gt_0|].
      apply Rinv_lt_contravar; [|exact Hb].
      apply Rmult_lt_0_compat; [exact Hb0|apply bpow_gt_0]. }
  assert (Hmag : bpow (d - 1 + e - (d' + e')) < bpow (Zdigits2 q + t)).
  { apply Rlt_le_trans with (1 := Hlow). apply Rlt_le.
    apply Rlt_le_trans with (1 := Hup). rewrite bpow_add.
    apply Rmult_le_compat_r; [lra|]. rewrite <- plus_IZR.
    now apply Zdigits2_upper. }
  apply bpow_lt_inv in Hmag. unfold t at 1. unfold SpecFloat.fexp in *. lia.
Qed.

(** ** Monotonicity of the operations *)

Lemma SFleb_zero_l (s : bool) (f : spec_float) :
  nonneg f -> SFleb (S754_zero s) f = true.
Proof. destruct f as [?|[]| |[] ? ?]; cbn; tauto. Qed.

Lemma SFleb_inf_r (f : spec_float) :
  nonneg f -> SFleb f (S754_infinity false) = true.
Proof. destruct f as [?|[]| |[] ? ?]; cbn; tauto. Qed.

Lemma SFleb_refl (f : spec_float) : nonneg f -> SFleb f f = true.
Proof.
  destruct f as [?|[]| |[] m e]; cbn; try tauto. intros _.
  unfold SFleb, SFcompare. rewrite Z.compare_refl.
  change (Pos.compare_cont Eq m m) with (Pos.compare m m).
  now rewrite Pos.compare_refl.
Qed.

Lemma SFdiv_nonneg (a : spec_float) (m : positive) (e : Z) :
  nonneg a -> nonneg (SFdiv prec emax a (S754_finite false m e)).
Proof.
  destruct a as [s|[]| |[] ma ea]; cbn [nonneg SFdiv xorb]; try tauto.
  intros _. pose proof (div_roundable ma ea m e) as H.
  destruct (SFdiv_core_binary prec emax (Zpos ma) ea (Zpos m) e) as [[q t] l].
  now apply round_nonneg with (F2R ma ea / F2R m e).
Qed.

(** Division by a positive finite number is monotone. *)
Lemma SFdiv_mono (a b : spec_float) (m : positive) (e : Z) :
  SpecFloat.valid_binary prec emax a = true ->
  SpecFloat.valid_binary prec emax b = true ->
  nonneg a -> nonneg b -> SFleb a b = true ->
  SFleb (SFdiv prec emax a (S754_finite false m e))
        (SFdiv prec emax b (S754_finite false m e)) = true.
Proof.
  intros Va Vb Na Nb Hab.
  pose proof (SFdiv_nonneg b m e Nb) as Nqb.
  destruct a as [sa|[]| |[] ma ea]; try contradiction.
  - change (SFdiv prec emax (S754_zero sa) (S754_finite false m e))
      with (S754_zero (xorb sa false)).
    now apply SFleb_zero_l.
  - destruct b as [sb|[]| |[] mb eb]; try contradiction; try discriminate.
    reflexivity.
  - destruct b as [sb|[]| |[] mb eb]; try contradiction; try discriminate.
    + change (SFdiv prec emax (S754_infinity false) (S754_finite false m e))
        with (S754_infinity false).
      now apply SFleb_inf_r, SFdiv_nonneg.
    + cbn [SFdiv xorb]. cbn [SpecFloat.valid_binary] in Va, Vb.
      pose proof (SFleb_F2R _ _ _ _ Va Vb Hab) as Hle.
      pose proof (div_roundable ma ea m e) as Ha.
      pose proof (div_roundable mb eb m e) as Hb.
      destruct (SFdiv_core_binary prec emax (Zpos ma) ea (Zpos m) e) as [[qa ta] la].
      destruct (SFdiv_core_binary prec emax (Zpos mb) eb (Zpos m) e) as [[qb tb] lb].
      apply round_le with (1 := Ha) (2 := Hb).
      unfold Rdiv. apply Rmult_le_compat_r; [|exact Hle].
      apply Rlt_le, Rinv_0_lt_compat, F2R_gt_0.
Qed.

(** Dividing a finite number by a number not below one cannot overflow. *)
Lemma SFdiv_le_self (ma : positive) (ea : Z) (m : positive) (e : Z) :
  SpecFloat.bounded prec emax ma ea = true -> 1 <= F2R m e ->
  SFleb (SFdiv prec emax (S754_finite false ma ea) (S754_finite false m e))
        (S754_finite false ma ea) = true.
Proof.
  intros Va Hd. cbn [SFdiv xorb].
  pose proof (div_roundable ma ea m e) as Ha.
  destruct (SFdiv_core_binary prec emax (Zpos ma) ea (Zpos m) e) as [[qa ta] la].
  rewrite <- (canonical_round ma ea Va).
  apply round_le with (1 := Ha) (2 := canonical_roundable ma ea Va).
  pose proof (F2R_gt_0 ma ea) as Hpa.
  apply Rmult_le_reg_r with (F2R m e); [lra|].
  replace (F2R ma ea / F2R m e * F2R m e) with (F2R ma ea) by (field; lra).
  rewrite <- (Rmult_1_r (F2R ma ea)) at 1.
  apply Rmult_le_compat_l; lra.
Qed.

(** Multiplying by a normal number not above one does not increase. *)
Lemma SFmul_le (mc : positive) (ec : Z) (b : spec_float) :
  (2 ^ (prec - 1) <= Zpos mc)%Z -> F2R mc ec <= 1 ->
  SpecFloat.valid_binary prec emax b = true -> nonneg b ->
  SFleb (SFmul prec emax (S754_finite false mc ec) b) b = true /\
  nonneg (SFmul prec emax (S754_finite false mc ec) b).
Proof.
  intros Hmc Hc Vb Nb. destruct b as [sb|[]| |[] mb eb]; try contradiction.
  - split; [now destruct sb|exact I].
  - split; [reflexivity|exact I].
  - cbn [SFmul xorb]. cbn [SpecFloat.valid_binary] in Vb.
    pose proof (mul_roundable mc ec mb eb Hmc) as Hx. split.
    + rewrite <- (canonical_round mb eb Vb).
      apply round_le with (1 := Hx) (2 := canonical_roundable mb eb Vb).
      pose proof (F2R_gt_0 mb eb) as Hpb. pose proof (F2R_gt_0 mc ec) as Hpc.
      rewrite <- (Rmult_1_l (F2R mb eb)) at 2.
      apply Rmult_le_compat_r; lra.
    + now apply round_nonneg with (1 := Hx).
Qed.

End rounding.

(** ** Binary64 *)

Section binary64.

Local Open Scope R_scope.

Lemma F2R_le_1 (m : positive) (e : Z) :
  (e <= 0)%Z -> (Zpos m <= 2 ^ (- e))%Z -> F2R m e <= 1.
Proof.
  intros He Hm. unfold F2R. pose proof (bpow_gt_0 (- e)) as Hp.
  apply Rmult_le_reg_r with (bpow (- e)); [exact Hp|].
  rewrite Rmult_assoc, <- bpow_add, Z.add_opp_diag_r, Rmult_1_l.
  replace (bpow 0) with 1 by reflexivity. rewrite Rmult_1_r.
  rewrite bpow_nonneg_IZR by lia. now apply IZR_le.
Qed.

Lemma F2R_ge_1 (m : positive) (e : Z) :
  (e <= 0)%Z -> (2 ^ (- e) <= Zpos m)%Z -> 1 <= F2R m e.
Proof.
  intros He Hm. unfold F2R. pose proof (bpow_gt_0 (- e)) as Hp.
  apply Rmult_le_reg_r with (bpow (- e)); [exact Hp|].
  rewrite Rmult_assoc, <- bpow_add, Z.add_opp_diag_r, Rmult_1_l.
  replace (bpow 0) with 1 by reflexivity. rewrite Rmult_1_r.
  rewrite bpow_nonneg_IZR by lia. now apply IZR_le.
Qed.

Lemma prec_gt_0 : (0 < FloatOps.prec)%Z.
Proof. reflexivity. Qed.

Lemma nonneg_of_leb (x : float) :
  PrimFloat.leb 0 x = true -> nonneg (Prim2SF x).
Proof.
  rewrite leb_spec. change (Prim2SF 0) with (S754_zero false).
  destruct (Prim2SF x) as [?|[]| |[] ? ?]; cbn; intros H; try exact I; discriminate.
Qed.

Lemma shrinking_quarter : shrinking 0.25.
Proof. do 2 eexists. split; [vm_compute; reflexivity|]. repeat split; discriminate. Qed.

Lemma shrinking_half : shrinking 0.5.
Proof. do 2 eexists. split; [vm_compute; reflexivity|]. repeat split; discriminate. Qed.

Lemma shrinking_three_quarters : shrinking 0.75.
Proof. do 2 eexists. split; [vm_compute; reflexivity|]. repeat split; discriminate. Qed.

Lemma SFleb_not_inf (f g : spec_float) :
  nonneg f -> SFleb f g = true -> g <> S754_infinity false ->
  f <> S754_infinity false.
Proof.
  intros Nf Hle Hg ->. destruct g as [?|[]| |[] ? ?]; try discriminate.
  now apply Hg.
Qed.

(** Division by a positive number, finite or not, of two ordered numbers
    that are not infinite when the divisor is. *)
Lemma SFdiv_mono_pos (a b d : spec_float) :
  SpecFloat.valid_binary FloatOps.prec emax a = true ->
  SpecFloat.valid_binary FloatOps.prec emax b = true ->
  nonneg a -> nonneg b -> SFleb a b = true ->
  SFltb (S754_zero false) d = true ->
  (d = S754_infinity false -> b <> S754_infinity false) ->
  SFleb (SFdiv FloatOps.prec emax a d) (SFdiv FloatOps.prec emax b d) = true /\
  nonneg (SFdiv FloatOps.prec emax b d).
Proof.
  intros Va Vb Na Nb Hab Hd Hinf.
  destruct d as [?|[]| |[] md ed]; try discriminate.
  - specialize (Hinf eq_refl).
    pose proof (SFleb_not_inf a b Na Hab Hinf) as Ha.
    destruct a as [?|[]| |[] ? ?]; try contradiction; try congruence;
      destruct b as [?|[]| |[] ? ?]; try contradiction; try congruence;
      split; try reflexivity; exact I.
  - split; [now apply SFdiv_mono with (1 := prec_gt_0)|].
    now apply SFdiv_nonneg with (1 := prec_gt_0).
Qed.

Local Open Scope float_scope.

(** The order of the growth rates: for [m >= 0], [e > 0], not both
    infinite, and a shrinking factor [c]. *)
Lemma rate_le (c m e : float) :
  shrinking c ->
  PrimFloat.leb 0 m = true -> PrimFloat.ltb 0 e = true ->
  PrimFloat.eqb m infinity && PrimFloat.eqb e infinity = false ->
  PrimFloat.leb (c * m / 1.5 / e) (m / 1.5 / e) = true /\
  PrimFloat.leb (m / 1.5 / e) (m / 1.5 / e) = true.
Proof.
  intros (mc & ec & Hc & Hmc & Hec & Hc1) Hm He Hinf.
  pose proof (nonneg_of_leb m Hm) as Nm.
  rewrite ltb_spec in He. change (Prim2SF 0) with (S754_zero false) in He.
  rewrite !eqb_spec in Hinf. change (Prim2SF infinity) with (S754_infinity false) in Hinf.
  rewrite !leb_spec, !div_spec, mul_spec, Hc.
  change (Prim2SF 1.5) with (S754_finite false 6755399441055744 (-52)).
  unfold SF64div, SF64mul.
  pose proof (Prim2SF_valid m) as Vm.
  assert (Vp : SpecFloat.valid_binary FloatOps.prec emax
                 (SFmul FloatOps.prec emax (S754_finite false mc ec) (Prim2SF m)) = true).
  { rewrite <- Hc. change (SFmul FloatOps.prec emax) with SF64mul.
    rewrite <- mul_spec. apply Prim2SF_valid. }
  destruct (SFmul_le FloatOps.prec emax prec_gt_0 mc ec (Prim2SF m) Hmc
              (F2R_le_1 mc ec Hec Hc1) Vm Nm) as [Hpm Np].
  set (P := SFmul FloatOps.prec emax (S754_finite false mc ec) (Prim2SF m)) in *.
  set (D := S754_finite false 6755399441055744 (-52)).
  assert (Vtz : SpecFloat.valid_binary FloatOps.prec emax (SFdiv FloatOps.prec emax P D) = true).
  { unfold P, D. rewrite <- Hc. change (SFmul FloatOps.prec emax) with SF64mul.
    rewrite <- mul_spec. change (S754_finite false 6755399441055744 (-52)) with (Prim2SF 1.5).
    change (SFdiv FloatOps.prec emax) with SF64div. rewrite <- div_spec.
    apply Prim2SF_valid. }
  assert (Vtn : SpecFloat.valid_binary FloatOps.prec emax
                  (SFdiv FloatOps.prec emax (Prim2SF m) D) = true).
  { unfold D. change (S754_finite false 6755399441055744 (-52)) with (Prim2SF 1.5).
    change (SFdiv FloatOps.prec emax) with SF64div. rewrite <- div_spec.
    apply Prim2SF_valid. }
  pose proof (SFdiv_mono FloatOps.prec emax prec_gt_0 P (Prim2SF m)
                6755399441055744 (-52) Vp Vm Np Nm Hpm) as Ht.
  fold D in Ht.
  pose proof (SFdiv_nonneg FloatOps.prec emax prec_gt_0 P
                6755399441055744 (-52) Np) as Ntz.
  pose proof (SFdiv_nonneg FloatOps.prec emax prec_gt_0 (Prim2SF m)
                6755399441055744 (-52) Nm) as Ntn.
  fold D in Ntz, Ntn.
  assert (Hfin : Prim2SF e = S754_infinity false ->
                 SFdiv FloatOps.prec emax (Prim2SF m) D <> S754_infinity false).
  { intros HE. rewrite HE in Hinf.
    destruct (Prim2SF m) as [?|[]| |[] mm em] eqn:Em; try contradiction.
    - discriminate.
    - discriminate.
    - cbn [SpecFloat.valid_binary] in Vm.
      pose proof (SFdiv_le_self FloatOps.prec emax prec_gt_0 mm em
                    6755399441055744 (-52) Vm) as Hself.
      fold D in Hself. intros Habs. rewrite Habs in Hself.
      discriminate Hself. apply F2R_ge_1; discriminate. }
  destruct (SFdiv_mono_pos _ _ (Prim2SF e) Vtz Vtn Ntz Ntn Ht He Hfin) as [Hr Nr].
  split; [exact Hr|]. now apply SFleb_refl.
Qed.

End binary64.

(** ** Order of the growth rates *)

Section growth_rate_order.

Import internode.
Local Open Scope float_scope.

Lemma ltb_0_nonzero (e : float) :
  PrimFloat.ltb 0 e = true -> PrimFloat.eqb e 0 = false.
Proof.
  rewrite ltb_spec, eqb_spec. change (Prim2SF 0) with (S754_zero false).
  destruct (Prim2SF e) as [?|[]| |[] ? ?]; cbn; intros H;
    try reflexivity; discriminate.
Qed.

(** C10 (as it holds on the code).  For every Internode, [growth_rate] has
    the same outcome for [None] and ['diffuse'], for ['small'] and
    ['floral'], and for ['dormant_start'], ['dormant_end'] and every string
    outside the recognized labels.  When [max_length >= 0] and
    [elongation_period > 0] and the two are not both infinite, the rate of
    every zone is at most ([<=]) the rate of [None]. *)
Theorem growth_rate_zone_order
  (min_length elongation_period plastochron max_length : float) :
  let self := __init__ min_length elongation_period plastochron max_length in
  growth_rate self None = growth_rate self (Some "diffuse") /\
  growth_rate self (Some "small") = growth_rate self (Some "floral") /\
  growth_rate self (Some "dormant_start") = growth_rate self (Some "dormant_end") /\
  (forall z, recognized z = false ->
     growth_rate self (Some z) = growth_rate self (Some "dormant_start")) /\
  (PrimFloat.leb 0 max_length = true ->
   PrimFloat.ltb 0 elongation_period = true ->
   PrimFloat.eqb max_length infinity && PrimFloat.eqb elongation_period infinity
   = false ->
   forall uzone, exists r r0,
     growth_rate self uzone = Ok r /\ growth_rate self None = Ok r0 /\
     PrimFloat.leb r r0 = true).
Proof.
  intros self. repeat split.
  - intros z Hz. now rewrite growth_rate_else.
  - intros Hm He Hinf uzone.
    assert (Hdiv : forall a, truediv a elongation_period = Ok (a / elongation_period))
      by (intros a; apply truediv_nonzero, ltb_0_nonzero, He).
    pose proof (rate_le 0.25 _ _ shrinking_quarter Hm He Hinf) as [Hq Hn].
    pose proof (rate_le 0.5 _ _ shrinking_half Hm He Hinf) as [Hh _].
    pose proof (rate_le 0.75 _ _ shrinking_three_quarters Hm He Hinf) as [Ht _].
    exists (match growth_rate self uzone with Ok r => r | Raise _ => 0 end),
           (max_length / 1.5 / elongation_period).
    destruct uzone as [z|]; cbn [growth_rate];
      repeat match goal with
             | |- context [String.eqb z ?l] => destruct (String.eqb z l)
             end;
      cbn [self __init__ _final_none _final_dormant_start _final_small
           _final_diffuse _final_medium _final_floral _final_dormant_end
           _final_else _elongation_period];
      rewrite !Hdiv; repeat split; assumption.
Qed.

End growth_rate_order.

Lemma growth_rate_zone_order_witness :
  exists r r0,
    internode.growth_rate (internode.__init__ 0.0001 10.0 3.0 0.03) (Some "medium")
    = Ok r /\
    internode.growth_rate (internode.__init__ 0.0001 10.0 3.0 0.03) None = Ok r0 /\
    PrimFloat.leb r r0 = true.
Proof.
  exact (proj2 (proj2 (proj2 (proj2
           (growth_rate_zone_order 0.0001 10.0 3.0 0.03))))
           eq_refl eq_refl eq_refl (Some "medium")).
Defined.

(** C10 as stated fails: with an infinite maximum length and an infinite
    elongation period, both positive, every rate is NaN, and NaN is not
    [<=] NaN. *)
Lemma growth_rate_order_fails_at_infinity :
  PrimFloat.leb 0 infinity = true /\
  PrimFloat.ltb 0 infinity = true /\
  internode.growth_rate (internode.__init__ 0.0001 infinity 3.0 infinity) (Some "small")
  = Ok nan /\
  internode.growth_rate (internode.__init__ 0.0001 infinity 3.0 infinity) None
  = Ok nan /\
  PrimFloat.leb nan nan = false.
Proof. repeat split. Qed.

(** * Further properties of the option classes *)

Lemma ns_get_none (n : string) (self : namespace) :
  ns_get n self = None <-> ~ In n (map fst self).
Proof.
  induction self as [|[n' v'] self IH]; cbn; [tauto|].
  destruct (String.eqb n n') eqn:E.
  - apply String.eqb_eq in E. subst. split; [discriminate|tauto].
  - apply String.eqb_neq in E. rewrite IH. split; [|tauto].
    intros H [->|Hin]; tauto.
Qed.

Lemma export_keys (attrs : namespace) :
  dict_keys (export attrs) = map KStr (map fst attrs).
Proof. unfold dict_keys, export. now rewrite !map_map. Qed.

(** X1.  The Mapping protocol is coherent: indexing an instance succeeds on
    exactly the keys its iteration yields. *)
Theorem getitem_succeeds_iff_iterated (c : cls) (attrs : namespace) (k : key) :
  (exists v, __getitem__ (VInstance c attrs) k = Ok v) <->
  (exists keys, __iter__ (VInstance c attrs) = Ok keys /\ In k keys).
Proof.
  unfold __getitem__, __iter__. cbn [asdict bind]. fold (export attrs).
  rewrite dict_get_export, export_keys. split.
  - intros [v Hv]. eexists. split; [reflexivity|].
    destruct k as [n|y k]; [|discriminate].
    destruct (ns_get n attrs) as [w|] eqn:E; [|discriminate].
    apply in_map, (ns_get_in _ _ _ E).
  - intros (keys & [= <-] & Hin). apply in_map_iff in Hin as (n & <- & Hn).
    destruct (ns_get n attrs) as [w|] eqn:E.
    + eexists. reflexivity.
    + apply ns_get_none in E. contradiction.
Qed.

Section group_construction.

Variable lpy_path : string.

Lemma post_init_names (g : group) (self self' : namespace) :
  __post_init__ g self = Ok self' -> map fst self' = map fst self.
Proof.
  destruct g; cbn; try (intros [= <-]; reflexivity).
  unfold OptionsMarkov__post_init__.
  destruct (getattr self "terminal_fate") as [raw|]; [|discriminate]. cbn.
  destruct (normalize raw) as [fate|]; [|discriminate]. cbn.
  intros [= <-]. apply setattr_names.
Qed.

Lemma fields_decl_names (g : group) :
  map fst (map (fun nv : string * pyval => (fst nv, Ok (snd nv))) (fields lpy_path g))
  = field_names lpy_path g.
Proof. unfold field_names. now rewrite map_map. Qed.

(** A constructed group has the fields its class declares, in declaration
    order. *)
Lemma construct_field_names (g : group) (kwargs : dict) (inst : pyval) :
  construct lpy_path g kwargs = Ok inst ->
  exists attrs, inst = VInstance (Cls g) attrs /\
                map fst attrs = field_names lpy_path g.
Proof.
  unfold construct, dataclass_init.
  destruct (forallb _ (dict_keys kwargs)); [|discriminate].
  destruct (bind_fields _ kwargs) as [self|] eqn:Einit; [|discriminate].
  cbn [bind]. destruct (__post_init__ g self) as [self'|] eqn:Epost; [|discriminate].
  cbn [bind]. intros [= <-]. exists self'. split; [reflexivity|].
  rewrite (post_init_names _ _ _ Epost).
  apply bind_fields_get in Einit as [Hnames _].
  - now rewrite Hnames, fields_decl_names.
  - rewrite fields_decl_names. apply field_names_nodup.
Qed.

(** X2.  Iterating a constructed group yields its declared field names in
    declaration order, and its length is their number, whatever keywords it was
    constructed from and in whatever order they came. *)
Theorem group_iter_len_declared (g : group) (kwargs : dict) (inst : pyval) :
  construct lpy_path g kwargs = Ok inst ->
  __iter__ inst = Ok (map KStr (field_names lpy_path g)) /\
  __len__ inst = Ok (Z.of_nat (List.length (field_names lpy_path g))).
Proof.
  intros H. destruct (construct_field_names _ _ _ H) as (attrs & -> & Hnames).
  unfold __iter__, __len__. cbn [asdict bind]. fold (export attrs).
  rewrite export_keys, Hnames. split; [reflexivity|].
  unfold export. now rewrite length_map, <- Hnames, length_map.
Qed.

(** X3.  Iterating a constructed root yields the eleven group names in
    declaration order, and its length is eleven. *)
Theorem root_iter_len_declared (kwargs : dict) (root : pyval) :
  Options_construct lpy_path kwargs = Ok root ->
  __iter__ root
  = Ok (map KStr ["general"; "input"; "output"; "events"; "tree"; "wood";
                  "internode"; "apex"; "markov"; "fruit"; "leaf"]) /\
  __len__ root = Ok 11%Z.
Proof.
  intros H. destruct (Options_construct_inv _ _ _ H) as (attrs & -> & Hnames & _).
  unfold __iter__, __len__. cbn [asdict bind]. fold (export attrs).
  rewrite export_keys, Hnames. split; [reflexivity|].
  unfold export. rewrite length_map, <- (length_map fst), Hnames. reflexivity.
Qed.

Lemma keyword_check (names : list string) (kwargs : dict) :
  forallb (keyword_ok names) (dict_keys kwargs) = true <->
  keywords_declared names kwargs.
Proof.
  rewrite forallb_forall. unfold keywords_declared.
  split; intros H k Hk; specialize (H k Hk).
  - destruct k as [n|y k]; [|discriminate]. cbn in H.
    apply existsb_exists in H as (n' & Hn' & E). apply String.eqb_eq in E.
    subst n'. now exists n.
  - destruct H as (n & Hn & ->). cbn. apply existsb_exists.
    exists n. split; [exact Hn|apply String.eqb_refl].
Qed.

Lemma dataclass_init_undeclared (decl : list (string * result pyval)) (kwargs : dict) :
  ~ keywords_declared (map fst decl) kwargs ->
  dataclass_init decl kwargs = Raise TypeError.
Proof.
  intros H. unfold dataclass_init.
  destruct (forallb _ (dict_keys kwargs)) eqn:E; [|reflexivity].
  apply keyword_check in E. contradiction.
Qed.

(** X4.  A keyword that is not a declared field makes the constructor of a group
    raise [TypeError]; for every group but the markov one that is the only way
    it can fail. *)
Theorem construct_keywords (g : group) (kwargs : dict) :
  (~ keywords_declared (field_names lpy_path g) kwargs ->
   construct lpy_path g kwargs = Raise TypeError) /\
  (keywords_declared (field_names lpy_path g) kwargs -> g <> OptionsMarkov ->
   exists inst, construct lpy_path g kwargs = Ok inst).
Proof.
  unfold construct. split.
  - intros H. rewrite dataclass_init_undeclared; [reflexivity|].
    now rewrite fields_decl_names.
  - intros H Hg. unfold dataclass_init. rewrite fields_decl_names.
    apply keyword_check in H. rewrite H.
    destruct (bind_fields_ok
                (map (fun nv => (fst nv, Ok (snd nv))) (fields lpy_path g)) kwargs)
      as [self ->].
    { intros n d Hin. apply in_map_iff in Hin as [nv [[= _ <-] _]]. eauto. }
    cbn [bind]. destruct g; try contradiction; cbn; eexists; reflexivity.
Qed.

(** What a constructed group holds in each declared field: the keyword's
    value, or else the declared default; for the fate table, what the
    normalization makes of that value. *)
Lemma construct_attr (g : group) (kwargs : dict) (inst : pyval) :
  construct lpy_path g kwargs = Ok inst ->
  forall f d, In (f, d) (fields lpy_path g) ->
    let given := match dict_get (KStr f) kwargs with Some v => v | None => d end in
    (g = OptionsMarkov /\ f = "terminal_fate" ->
     exists fate, normalize given = Ok fate /\ attr inst f = Some fate) /\
    (~ (g = OptionsMarkov /\ f = "terminal_fate") -> attr inst f = Some given).
Proof.
  unfold construct, dataclass_init.
  destruct (forallb _ (dict_keys kwargs)); [|discriminate].
  destruct (bind_fields _ kwargs) as [self|] eqn:Einit; [|discriminate].
  cbn [bind]. destruct (__post_init__ g self) as [self'|] eqn:Epost; [|discriminate].
  cbn [bind]. intros [= <-] f d Hin. cbn zeta.
  set (given := match dict_get (KStr f) kwargs with Some v => v | None => d end).
  cbn [attr].
  assert (Hnd : NoDup (map fst (map (fun nv : string * pyval => (fst nv, Ok (snd nv)))
                                   (fields lpy_path g)))).
  { rewrite fields_decl_names. apply field_names_nodup. }
  destruct (bind_fields_get _ _ _ Hnd Einit) as [_ Hinit].
  destruct (Hinit f (Ok d)) as (v & Hv & Hkw).
  { apply in_map_iff. now exists (f, d). }
  assert (Hgiven : v = given).
  { unfold given. destruct (dict_get (KStr f) kwargs); congruence. }
  subst v. clear Hkw. split.
  - intros [-> ->]. cbn in Epost. unfold OptionsMarkov__post_init__, getattr in Epost.
    rewrite Hv in Epost. cbn in Epost.
    destruct (normalize given) as [fate|]; [|discriminate]. cbn in Epost.
    injection Epost as <-. exists fate. split; [reflexivity|].
    now rewrite ns_get_setattr, String.eqb_refl, Hv.
  - intros Hnot. destruct g; cbn in Epost; try (injection Epost as <-; exact Hv).
    unfold OptionsMarkov__post_init__ in Epost.
    destruct (getattr self "terminal_fate") as [raw|]; [|discriminate]. cbn in Epost.
    destruct (normalize raw) as [fate|]; [|discriminate]. cbn in Epost.
    injection Epost as <-. rewrite ns_get_setattr.
    destruct (String.eqb f "terminal_fate") eqn:E; [|exact Hv].
    apply String.eqb_eq in E. tauto.
Qed.

(** X5.  Partial overrides: a constructed group holds, in every declared field
    other than the fate table, the keyword's value if one was given and the
    declared default otherwise. *)
Theorem construct_merges_defaults (g : group) (kwargs : dict) (inst : pyval) :
  construct lpy_path g kwargs = Ok inst ->
  forall f d, In (f, d) (fields lpy_path g) ->
    ~ (g = OptionsMarkov /\ f = "terminal_fate") ->
    attr inst f
    = Some match dict_get (KStr f) kwargs with Some v => v | None => d end.
Proof.
  intros H f d Hin Hnot. exact (proj2 (construct_attr g kwargs inst H f d Hin) Hnot).
Qed.

Lemma dict_get_some_in (k : key) (v : pyval) (d : dict) :
  dict_get k d = Some v -> In k (dict_keys d).
Proof.
  intros H. apply dict_get_in in H. change k with (fst (k, v)). now apply in_map.
Qed.

(** X6.  Construction then lookup: indexing a constructed group by the name of a
    keyword it was given returns that keyword's value, when the value holds no
    group instance and the field is not the fate table. *)
Theorem construct_then_getitem
  (g : group) (kwargs : dict) (inst : pyval) (f : string) (v : pyval) :
  construct lpy_path g kwargs = Ok inst ->
  dict_get (KStr f) kwargs = Some v ->
  plain v = true ->
  ~ (g = OptionsMarkov /\ f = "terminal_fate") ->
  __getitem__ inst (KStr f) = Ok v.
Proof.
  intros H Hv Hp Hnot.
  assert (Hf : exists d, In (f, d) (fields lpy_path g)).
  { assert (Hkw : keywords_declared (field_names lpy_path g) kwargs).
    { apply keyword_check. unfold construct, dataclass_init in H.
      rewrite fields_decl_names in H.
      destruct (forallb _ (dict_keys kwargs)); [reflexivity|discriminate]. }
    destruct (Hkw _ (dict_get_some_in _ _ _ Hv)) as (n & Hn & [= <-]).
    apply in_map_iff in Hn as [[n d] [E Hin]]. cbn in E. subst n. now exists d. }
  destruct Hf as [d Hin].
  pose proof (proj2 (construct_attr g kwargs inst H f d Hin) Hnot) as Hattr.
  cbn zeta in Hattr. rewrite Hv in Hattr.
  destruct (construct_instance _ _ _ _ H) as [fs ->]. cbn [attr] in Hattr.
  unfold __getitem__. cbn [asdict bind]. fold (export fs).
  rewrite dict_get_export, Hattr. cbn. now rewrite asdict_inner_plain.
Qed.

(** X7.  A keyword that is not one of the eleven group names makes [Options]
    raise [TypeError], and so [Options.loads] of a document with such a section. *)
Theorem Options_unknown_section (kwargs : dict) :
  ~ keywords_declared (map fst Options_fields) kwargs ->
  Options_construct lpy_path kwargs = Raise TypeError /\
  forall T text,
    toml_loads T text = Ok (VDict kwargs) ->
    Options_loads lpy_path T text = Raise TypeError.
Proof.
  intros H.
  assert (Hc : Options_construct lpy_path kwargs = Raise TypeError).
  { unfold Options_construct. rewrite dataclass_init_undeclared; [reflexivity|].
    now rewrite map_map. }
  split; [exact Hc|]. intros T text Hload. unfold Options_loads.
  now rewrite Hload.
Qed.

End group_construction.

Lemma root_iter_len_declared_witness :
  __iter__ example_root
  = Ok (map KStr ["general"; "input"; "output"; "events"; "tree"; "wood";
                  "internode"; "apex"; "markov"; "fruit"; "leaf"]) /\
  __len__ example_root = Ok 11%Z.
Proof.
  exact (root_iter_len_declared "lpy" example_kwargs example_root eq_refl).
Defined.

Lemma group_iter_len_declared_witness :
  __iter__ (markov_with (VDict []))
  = Ok [KStr "maximum_length"; KStr "minimum_length"; KStr "terminal_fate"] /\
  __len__ (markov_with (VDict [])) = Ok 3%Z.
Proof.
  exact (group_iter_len_declared "lpy" OptionsMarkov [] (markov_with (VDict []))
           eq_refl).
Defined.

Lemma construct_merges_defaults_witness :
  construct "lpy" OptionsInternode [(KStr "max_length", VFloat 0.05)]
  = Ok (VInstance (Cls OptionsInternode)
          [("min_length", VFloat 0.0001); ("elongation_period", VFloat 10.0);
           ("plastochron", VFloat 3.0); ("max_length", VFloat 0.05)]) /\
  attr (VInstance (Cls OptionsInternode)
          [("min_length", VFloat 0.0001); ("elongation_period", VFloat 10.0);
           ("plastochron", VFloat 3.0); ("max_length", VFloat 0.05)])
       "plastochron"
  = Some (VFloat 3.0).
Proof.
  split; [reflexivity|].
  refine (construct_merges_defaults "lpy" OptionsInternode
            [(KStr "max_length", VFloat 0.05)] _ eq_refl
            "plastochron" (VFloat 3.0) _ _).
  - cbn. tauto.
  - intros [H _]. discriminate H.
Defined.

Lemma construct_then_getitem_witness :
  __getitem__ (VInstance (Cls OptionsInternode)
          [("min_length", VFloat 0.0001); ("elongation_period", VFloat 10.0);
           ("plastochron", VFloat 3.0); ("max_length", VFloat 0.05)])
    (KStr "max_length")
  = Ok (VFloat 0.05).
Proof.
  refine (construct_then_getitem "lpy" OptionsInternode
            [(KStr "max_length", VFloat 0.05)] _ "max_length" (VFloat 0.05)
            eq_refl eq_refl eq_refl _).
  intros [H _]. discriminate H.
Defined.

Lemma Options_unknown_section_witness :
  Options_construct "lpy" [(KStr "roots", VDict [])] = Raise TypeError.
Proof.
  refine (proj1 (Options_unknown_section "lpy" [(KStr "roots", VDict [])] _)).
  intros H. destruct (H (KStr "roots")) as (n & Hn & [= <-]); [now left|].
  cbn in Hn. intuition discriminate.
Defined.

(** ** The root: what it accepts, stores and leaves alone *)

Lemma setattr_same (self : namespace) (n : string) (v : pyval) :
  ns_get n self = Some v -> setattr self n v = self.
Proof.
  induction self as [|[n' v'] self IH]; cbn; [reflexivity|].
  destruct (String.eqb n n'); [now intros [= ->]|].
  intros H. now rewrite IH.
Qed.

Lemma forallb_perm {A : Type} (f : A -> bool) (l l' : list A) :
  Permutation l l' -> forallb f l = forallb f l'.
Proof.
  induction 1 as [|x l l' _ IH|x y l|l l' l'' _ IH1 _ IH2]; cbn.
  - reflexivity.
  - now rewrite IH.
  - now destruct (f x), (f y).
  - now rewrite IH1.
Qed.

(** In dicts, where keys do not repeat, lookups do not depend on the order
    of the entries. *)
Lemma dict_get_perm (k : key) (d d' : dict) :
  NoDup (dict_keys d) -> Permutation d d' -> dict_get k d = dict_get k d'.
Proof.
  intros Hnd Hp.
  assert (Hnd' : NoDup (dict_keys d')).
  { apply Permutation_NoDup with (2 := Hnd). now apply Permutation_map. }
  destruct (dict_get k d) as [v|] eqn:E.
  - symmetry. apply dict_get_iff_in; [exact Hnd'|].
    apply Permutation_in with (1 := Hp). now apply dict_get_in.
  - destruct (dict_get k d') as [v|] eqn:E'; [|reflexivity].
    apply dict_get_in in E'. apply Permutation_in with (1 := Permutation_sym Hp) in E'.
    apply dict_get_iff_in in E'; [congruence|exact Hnd].
Qed.

Lemma bind_fields_ext (decl : list (string * result pyval)) (kwargs kwargs' : dict) :
  (forall k, dict_get k kwargs = dict_get k kwargs') ->
  bind_fields decl kwargs = bind_fields decl kwargs'.
Proof.
  intros H. induction decl as [|[n d] decl IH]; cbn; [reflexivity|].
  now rewrite H, IH.
Qed.

Lemma dataclass_init_perm (decl : list (string * result pyval)) (kwargs kwargs' : dict) :
  NoDup (dict_keys kwargs) -> Permutation kwargs kwargs' ->
  dataclass_init decl kwargs = dataclass_init decl kwargs'.
Proof.
  intros Hnd Hp. unfold dataclass_init.
  rewrite (forallb_perm _ (dict_keys kwargs) (dict_keys kwargs'))
    by now apply Permutation_map.
  rewrite (bind_fields_ext decl kwargs kwargs'); [reflexivity|].
  intros k. now apply dict_get_perm.
Qed.

Lemma asdict_inner_is_plain : forall v : pyval, plain (asdict_inner v) = true.
Proof.
  fix IH 1. intros [ | | | | | |items|items|entries|c attrs]; cbn; try reflexivity.
  - induction items as [|x items IHitems]; cbn; [reflexivity|].
    now rewrite IH, IHitems.
  - induction items as [|x items IHitems]; cbn; [reflexivity|].
    now rewrite IH, IHitems.
  - induction entries as [|[k x] entries IHentries]; cbn; [reflexivity|].
    now rewrite IH, IHentries.
  - induction attrs as [|[n x] attrs IHattrs]; cbn; [reflexivity|].
    now rewrite IH, IHattrs.
Qed.

(** X8.  What the Mapping protocol and [dumps] hand out holds no option-class
    instance at any depth: neither the mapping exported from an instance nor any
    value read from it by key. *)
Theorem export_holds_no_instance (self : pyval) (d : dict) :
  asdict self = Ok d ->
  plain (VDict d) = true /\
  forall k v, __getitem__ self k = Ok v -> plain v = true.
Proof.
  destruct self as [ | | | | | | | | |c attrs]; try discriminate.
  intros [= <-]. split.
  - exact (asdict_inner_is_plain (VInstance c attrs)).
  - intros k v. unfold __getitem__. cbn [asdict bind]. fold (export attrs).
    rewrite dict_get_export. destruct k as [n|y k]; [|discriminate].
    destruct (ns_get n attrs) as [x|]; [|discriminate].
    cbn. intros [= <-]. apply asdict_inner_is_plain.
Qed.

Section root_behaviour.

Variable lpy_path : string.

Lemma make_dataclass_fixed (g : group) (v v' : pyval) :
  _make_dataclass lpy_path g v = Ok v' -> _make_dataclass lpy_path g v' = Ok v'.
Proof.
  destruct v; cbn; try (intros [= <-]; reflexivity).
  intros H. destruct (construct_instance _ _ _ _ H) as [fs ->]. reflexivity.
Qed.

Lemma coerce_all_fixed (fs : list (string * group)) (self : namespace) :
  (forall n g, In (n, g) fs ->
     exists v, ns_get n self = Some v /\ _make_dataclass lpy_path g v = Ok v) ->
  coerce_all lpy_path fs self = Ok self.
Proof.
  induction fs as [|[n0 g0] fs IH]; intros H; cbn; [reflexivity|].
  destruct (H n0 g0) as (v & Hv & Hmk); [now left|].
  unfold coerce, getattr. rewrite Hv. cbn [bind]. rewrite Hmk. cbn [bind].
  rewrite setattr_same by exact Hv. apply IH. intros n g Hin. apply H. now right.
Qed.

(** X9.  [Options.__post_init__] is idempotent: run again on the attributes it
    has produced, it succeeds and changes nothing. *)
Theorem Options__post_init___idempotent (self self' : namespace) :
  Options__post_init__ lpy_path self = Ok self' ->
  Options__post_init__ lpy_path self' = Ok self'.
Proof.
  rewrite !Options__post_init___loop. intros H.
  apply coerce_all_inv in H as (_ & _ & H); [|exact Options_fields_nodup].
  apply coerce_all_fixed. intros n g Hin.
  destruct (H n g Hin) as (v & v' & _ & Hmk & Hv').
  exists v'. split; [exact Hv'|]. exact (make_dataclass_fixed _ _ _ Hmk).
Qed.

Lemma Options_construct_keywords (kwargs : dict) (root : pyval) :
  Options_construct lpy_path kwargs = Ok root ->
  keywords_declared (map fst Options_fields) kwargs.
Proof.
  unfold Options_construct, dataclass_init. rewrite map_map. cbn [fst].
  intros H. apply keyword_check.
  destruct (forallb _ (dict_keys kwargs)); [reflexivity|discriminate].
Qed.

(** X10.  [Options] succeeds exactly when every keyword names one of the eleven
    groups and the constructor of each group given as a mapping accepts that
    mapping: values that are not mappings are never a reason to fail. *)
Theorem Options_construct_succeeds_iff (kwargs : dict) :
  (exists root, Options_construct lpy_path kwargs = Ok root) <->
  keywords_declared (map fst Options_fields) kwargs /\
  forall n g mapping,
    In (n, g) Options_fields ->
    dict_get (KStr n) kwargs = Some (VDict mapping) ->
    exists inst, construct lpy_path g mapping = Ok inst.
Proof.
  split.
  - intros [root H]. split; [exact (Options_construct_keywords _ _ H)|].
    intros n g mapping Hin Hget.
    destruct (Options_construct_inv _ _ _ H) as (attrs & _ & _ & Hattrs).
    destruct (Hattrs n g Hin) as (v & v' & Hv & Hmk & _).
    rewrite Hget in Hv. subst v. now exists v'.
  - intros [Hkw Hmaps]. apply Options_construct_ok.
    + now apply keyword_check.
    + intros n g Hin. destruct (dict_get (KStr n) kwargs) as [w|] eqn:E.
      * destruct w; try (eexists; reflexivity). exact (Hmaps n g _ Hin E).
      * eexists; reflexivity.
Qed.

(** X11.  No validation of the groups: a keyword value that is not a mapping is
    stored in the root as it is, whatever it is. *)
Theorem Options_stores_non_mapping
  (kwargs : dict) (root : pyval) (n : string) (v : pyval) :
  Options_construct lpy_path kwargs = Ok root ->
  dict_get (KStr n) kwargs = Some v ->
  (forall mapping, v <> VDict mapping) ->
  attr root n = Some v.
Proof.
  intros H Hget Hv.
  destruct (Options_construct_keywords _ _ H _ (dict_get_some_in _ _ _ Hget))
    as (n' & Hn' & [= <-]).
  apply in_map_iff in Hn' as [[n' g] [E Hin]]. cbn in E. subst n'.
  destruct (Options_construct_inv _ _ _ H) as (attrs & -> & _ & Hattrs).
  destruct (Hattrs n g Hin) as (w & w' & Hw & Hmk & Hw').
  rewrite Hget in Hw. subst w. cbn [attr]. rewrite Hw'. f_equal.
  destruct v; cbn in Hmk; try (now injection Hmk as <-).
  now destruct (Hv entries).
Qed.

(** X12.  The order in which keywords are given is irrelevant, to the groups and
    to the root. *)
Theorem keyword_order_irrelevant (kwargs kwargs' : dict) :
  NoDup (dict_keys kwargs) -> Permutation kwargs kwargs' ->
  (forall g, construct lpy_path g kwargs = construct lpy_path g kwargs') /\
  Options_construct lpy_path kwargs = Options_construct lpy_path kwargs'.
Proof.
  intros Hnd Hp. split.
  - intros g. unfold construct. now rewrite (dataclass_init_perm _ _ _ Hnd Hp).
  - unfold Options_construct. now rewrite (dataclass_init_perm _ _ _ Hnd Hp).
Qed.

End root_behaviour.

Lemma export_holds_no_instance_witness :
  plain (VDict (export (map (fun ng => (fst ng, defaults "lpy" (snd ng)))
                            Options_fields))) = true /\
  forall k v, __getitem__ (default_root "lpy") k = Ok v -> plain v = true.
Proof.
  exact (export_holds_no_instance (default_root "lpy") _ eq_refl).
Defined.

Lemma Options__post_init___idempotent_witness :
  exists self' : namespace,
    Options__post_init__ "lpy"
      [("general", VDict [(KStr "seed", VInt 7)]);
       ("input", defaults "lpy" OptionsInput);
       ("output", defaults "lpy" OptionsOutput);
       ("events", defaults "lpy" OptionsEvents);
       ("tree", defaults "lpy" OptionsTree);
       ("wood", defaults "lpy" OptionsWood);
       ("internode", VDict []);
       ("apex", defaults "lpy" OptionsApex);
       ("markov", defaults "lpy" OptionsMarkov);
       ("fruit", defaults "lpy" OptionsFruit);
       ("leaf", defaults "lpy" OptionsLeaf)] = Ok self' /\
    Options__post_init__ "lpy" self' = Ok self'.
Proof.
  match goal with
  | |- exists self', Options__post_init__ _ ?given = _ /\ _ => set (self := given)
  end.
  eexists. split; [reflexivity|].
  exact (Options__post_init___idempotent "lpy" self _ eq_refl).
Defined.

Lemma Options_stores_non_mapping_witness :
  exists root,
    Options_construct "lpy" [(KStr "general", VInt 3)] = Ok root /\
    attr root "general" = Some (VInt 3).
Proof.
  eexists. split; [reflexivity|].
  refine (Options_stores_non_mapping "lpy" [(KStr "general", VInt 3)] _
            "general" (VInt 3) eq_refl eq_refl _).
  discriminate.
Defined.

Lemma keyword_order_irrelevant_witness :
  Options_construct "lpy"
    [(KStr "general", VDict [(KStr "seed", VInt 7)]); (KStr "leaf", VDict [])]
  = Options_construct "lpy"
    [(KStr "leaf", VDict []); (KStr "general", VDict [(KStr "seed", VInt 7)])].
Proof.
  refine (proj2 (keyword_order_irrelevant "lpy"
            [(KStr "general", VDict [(KStr "seed", VInt 7)]); (KStr "leaf", VDict [])]
            [(KStr "leaf", VDict []); (KStr "general", VDict [(KStr "seed", VInt 7)])]
            _ _)).
  - repeat constructor; cbn; intuition discriminate.
  - apply perm_swap.
Defined.

(** ** Normalization of any sequence of dicts *)

Lemma flat_dicts_years (ds : list dict) : forall (i : Z) (k : key) (v : pyval),
  In (k, v) (flat_dicts i ds) ->
  exists y k0, k = KTup y k0 /\ (i < y <= i + Z.of_nat (List.length ds))%Z.
Proof.
  induction ds as [|d ds IH]; intros i k v; cbn [flat_dicts List.length]; [intros []|].
  rewrite in_app_iff, in_map_iff. intros [[[k0 v0] [[= <- <-] _]]|H].
  - exists (i + 1)%Z, k0. split; [reflexivity|lia].
  - destruct (IH _ _ _ H) as (y & k0 & -> & Hy). exists y, k0.
    split; [reflexivity|lia].
Qed.

Lemma dict_get_year (y y' : Z) (k : key) (d : dict) :
  dict_get (KTup y k) (map (fun kv => (KTup y' (fst kv), snd kv)) d)
  = if Z.eqb y y' then dict_get k d else None.
Proof.
  induction d as [|[k' v'] d IH]; cbn; [now destruct (Z.eqb y y')|].
  rewrite IH. now destruct (Z.eqb y y'), (key_eqb k k').
Qed.

Lemma flat_dicts_get_year (i y : Z) (ds : list dict) (k : key) :
  (y <= i)%Z -> dict_get (KTup y k) (flat_dicts i ds) = None.
Proof.
  intros Hy. destruct (dict_get (KTup y k) (flat_dicts i ds)) eqn:E; [|reflexivity].
  apply dict_get_in, flat_dicts_years in E. destruct E as (y' & k0 & [= -> ->] & H).
  lia.
Qed.

(** The entry of position [j] is found under the year [j + 1]. *)
Lemma flat_dicts_get (ds : list dict) : forall (i : Z) (j : nat) (d : dict) (k : key),
  nth_error ds j = Some d ->
  dict_get (KTup (i + Z.of_nat j + 1) k) (flat_dicts i ds) = dict_get k d.
Proof.
  induction ds as [|d0 ds IH]; intros i [|j] d k; cbn [nth_error flat_dicts];
    try discriminate.
  - intros [= ->]. rewrite dict_get_app, dict_get_year.
    replace (i + Z.of_nat 0 + 1)%Z with (i + 1)%Z by lia. rewrite Z.eqb_refl.
    rewrite flat_dicts_get_year by lia. now destruct (dict_get k d).
  - intros H. rewrite dict_get_app, dict_get_year.
    destruct (Z.eqb_spec (i + Z.of_nat (S j) + 1) (i + 1)) as [E|_]; [lia|].
    replace (i + Z.of_nat (S j) + 1)%Z with (i + 1 + Z.of_nat j + 1)%Z by lia.
    now apply IH.
Qed.

Lemma flat_dicts_length (ds : list dict) : forall i : Z,
  List.length (flat_dicts i ds) = list_sum (map (@List.length (key * pyval)) ds).
Proof.
  induction ds as [|d ds IH]; intros i; cbn; [reflexivity|].
  now rewrite length_app, length_map, IH.
Qed.

(** On dicts the loop cannot raise, and appends the entries of
    [flat_dicts] to a dict that holds no later year. *)
Lemma fate_loop_dicts (ds : list dict) : forall (i : Z) (fate : dict),
  Forall (fun d => NoDup (dict_keys d)) ds ->
  (forall y k, (i < y)%Z -> dict_get (KTup y k) fate = None) ->
  fate_loop i (map VDict ds) fate = Ok (fate ++ flat_dicts i ds).
Proof.
  induction ds as [|d ds IH]; intros i fate Hd Hfresh; cbn.
  - now rewrite app_nil_r.
  - inversion Hd as [|? ? Hd0 Hd']; subst.
    rewrite fate_item_fresh.
    + rewrite IH; [now rewrite <- app_assoc|exact Hd'|].
      intros y k Hy. rewrite dict_get_app, Hfresh by lia.
      rewrite dict_get_year. destruct (Z.eqb_spec y (i + 1)); [lia|reflexivity].
    + exact Hd0.
    + intros k _. apply Hfresh. lia.
Qed.

(** X13.  Normalization of any sequence (list or tuple) of dicts, whatever their
    keys and values: the result holds, under [(i + 1, k)], what the dict at the
    0-based position [i] holds under [k], and nothing else; it has as many
    entries as the dicts have together, in their order. *)
Theorem normalize_sequence_of_dicts (ds : list dict) :
  Forall (fun d => NoDup (dict_keys d)) ds ->
  normalize (VList (map VDict ds)) = Ok (VDict (flat_dicts 0 ds)) /\
  normalize (VTuple (map VDict ds)) = Ok (VDict (flat_dicts 0 ds)) /\
  (forall (i : nat) d k,
     nth_error ds i = Some d ->
     dict_get (KTup (Z.of_nat i + 1) k) (flat_dicts 0 ds) = dict_get k d) /\
  (forall k v,
     In (k, v) (flat_dicts 0 ds) ->
     exists y k0, k = KTup y k0 /\ (1 <= y <= Z.of_nat (List.length ds))%Z) /\
  List.length (flat_dicts 0 ds) = list_sum (map (@List.length (key * pyval)) ds).
Proof.
  intros Hd.
  assert (Hloop : fate_loop 0 (map VDict ds) [] = Ok (flat_dicts 0 ds)).
  { now rewrite fate_loop_dicts. }
  repeat split.
  - unfold normalize. cbn [py_iter bind]. now rewrite Hloop.
  - unfold normalize. cbn [py_iter bind]. now rewrite Hloop.
  - intros i d k Hi. exact (flat_dicts_get ds 0 i d k Hi).
  - intros k v Hin. destruct (flat_dicts_years ds 0 k v Hin) as (y & k0 & -> & Hy).
    exists y, k0. split; [reflexivity|lia].
  - apply flat_dicts_length.
Qed.

Lemma normalize_sequence_of_dicts_witness :
  normalize (VTuple [VDict [(KTup 0 (KStr "a"), VNone)]; VDict [];
                     VDict [(KStr "b", VStr "x")]])
  = Ok (VDict [(KTup 1 (KTup 0 (KStr "a")), VNone); (KTup 3 (KStr "b"), VStr "x")]).
Proof.
  refine (proj1 (proj2 (normalize_sequence_of_dicts
            [[(KTup 0 (KStr "a"), VNone)]; []; [(KStr "b", VStr "x")]] _))).
  repeat constructor; cbn; tauto.
Defined.

(** ** The rates of the zones, in order *)

Section rate_chain.

Local Open Scope R_scope.

(** Multiplication of a non-negative number is monotone in the factor. *)
Lemma SFmul_mono (m1 : positive) (e1 : Z) (m2 : positive) (e2 : Z) (b : spec_float) :
  (2 ^ (FloatOps.prec - 1) <= Zpos m1)%Z ->
  (2 ^ (FloatOps.prec - 1) <= Zpos m2)%Z ->
  F2R m1 e1 <= F2R m2 e2 ->
  nonneg b ->
  SFleb (SFmul FloatOps.prec emax (S754_finite false m1 e1) b)
        (SFmul FloatOps.prec emax (S754_finite false m2 e2) b) = true.
Proof.
  intros H1 H2 Hle Nb. destruct b as [sb|[]| |[] mb eb]; try contradiction.
  - now destruct sb.
  - reflexivity.
  - cbn [SFmul xorb].
    apply (round_le FloatOps.prec emax prec_gt_0) with
      (1 := mul_roundable FloatOps.prec emax prec_gt_0 m1 e1 mb eb H1)
      (2 := mul_roundable FloatOps.prec emax prec_gt_0 m2 e2 mb eb H2).
    pose proof (F2R_gt_0 mb eb). apply Rmult_le_compat_r; lra.
Qed.

Local Open Scope float_scope.

(** The nominal length over [1.5] is finite when the maximum length is. *)
Lemma final_none_finite (m : float) :
  nonneg (Prim2SF m) -> Prim2SF m <> S754_infinity false ->
  SFdiv FloatOps.prec emax (Prim2SF m) (Prim2SF 1.5) <> S754_infinity false.
Proof.
  intros Nm Hm. pose proof (Prim2SF_valid m) as Vm.
  change (Prim2SF 1.5) with (S754_finite false 6755399441055744 (-52)).
  destruct (Prim2SF m) as [?|[]| |[] mm em]; try contradiction; try discriminate.
  cbn [SpecFloat.valid_binary] in Vm.
  pose proof (SFdiv_le_self FloatOps.prec emax prec_gt_0 mm em
                6755399441055744 (-52) Vm) as Hself.
  intros Habs. rewrite Habs in Hself. discriminate Hself.
  apply F2R_ge_1; discriminate.
Qed.

(** Two shrinking factors in order give rates in order, and rates that are
    not negative. *)
Lemma rate_mono (c1 c2 m e : float) :
  shrinking c1 -> shrinking c2 -> PrimFloat.leb c1 c2 = true ->
  PrimFloat.leb 0 m = true -> PrimFloat.ltb 0 e = true ->
  PrimFloat.eqb m infinity && PrimFloat.eqb e infinity = false ->
  PrimFloat.leb 0 (c1 * m / 1.5 / e) = true /\
  PrimFloat.leb (c1 * m / 1.5 / e) (c2 * m / 1.5 / e) = true.
Proof.
  intros (m1 & e1 & Hc1 & Hm1 & He1 & Hb1) (m2 & e2 & Hc2 & Hm2 & He2 & Hb2)
         Hc Hm He Hinf.
  pose proof (nonneg_of_leb m Hm) as Nm.
  pose proof (Prim2SF_valid m) as Vm.
  pose proof (Prim2SF_valid (c1 * m)) as Vp1.
  pose proof (Prim2SF_valid (c2 * m)) as Vp2.
  pose proof (Prim2SF_valid (c1 * m / 1.5)) as Vt1.
  pose proof (Prim2SF_valid (c2 * m / 1.5)) as Vt2.
  pose proof (Prim2SF_valid (m / 1.5)) as Vtn.
  assert (Hle : (F2R m1 e1 <= F2R m2 e2)%R).
  { pose proof (Prim2SF_valid c1) as V1. pose proof (Prim2SF_valid c2) as V2.
    rewrite leb_spec in Hc. rewrite Hc1 in V1, Hc. rewrite Hc2 in V2, Hc.
    exact (SFleb_F2R _ _ _ _ _ _ V1 V2 Hc). }
  rewrite ltb_spec in He. change (Prim2SF 0) with (S754_zero false) in He.
  rewrite !eqb_spec in Hinf.
  change (Prim2SF infinity) with (S754_infinity false) in Hinf.
  rewrite !leb_spec. change (Prim2SF 0) with (S754_zero false).
  rewrite (div_spec (c1 * m / 1.5) e), (div_spec (c2 * m / 1.5) e).
  rewrite (div_spec (c1 * m) 1.5) in Vt1 |- *.
  rewrite (div_spec (c2 * m) 1.5) in Vt2 |- *.
  rewrite (div_spec m 1.5) in Vtn.
  rewrite (mul_spec c1 m) in Vp1, Vt1 |- *.
  rewrite (mul_spec c2 m) in Vp2, Vt2 |- *.
  rewrite Hc1 in Vp1, Vt1 |- *. rewrite Hc2 in Vp2, Vt2 |- *.
  unfold SF64div, SF64mul in *.
  destruct (SFmul_le FloatOps.prec emax prec_gt_0 m1 e1 (Prim2SF m) Hm1
              (F2R_le_1 m1 e1 He1 Hb1) Vm Nm) as [_ Np1].
  destruct (SFmul_le FloatOps.prec emax prec_gt_0 m2 e2 (Prim2SF m) Hm2
              (F2R_le_1 m2 e2 He2 Hb2) Vm Nm) as [Hp2 Np2].
  pose proof (SFmul_mono m1 e1 m2 e2 (Prim2SF m) Hm1 Hm2 Hle Nm) as Hp.
  set (P1 := SFmul FloatOps.prec emax (S754_finite false m1 e1) (Prim2SF m)) in *.
  set (P2 := SFmul FloatOps.prec emax (S754_finite false m2 e2) (Prim2SF m)) in *.
  pose proof (final_none_finite m Nm) as Hfin.
  change (Prim2SF 1.5) with (S754_finite false 6755399441055744 (-52)) in *.
  set (D := S754_finite false 6755399441055744 (-52)) in *.
  pose proof (SFdiv_mono FloatOps.prec emax prec_gt_0 P1 P2
                6755399441055744 (-52) Vp1 Vp2 Np1 Np2 Hp) as Ht.
  pose proof (SFdiv_mono FloatOps.prec emax prec_gt_0 P2 (Prim2SF m)
                6755399441055744 (-52) Vp2 Vm Np2 Nm Hp2) as Htn.
  pose proof (SFdiv_nonneg FloatOps.prec emax prec_gt_0 P1
                6755399441055744 (-52) Np1) as Nt1.
  pose proof (SFdiv_nonneg FloatOps.prec emax prec_gt_0 P2
                6755399441055744 (-52) Np2) as Nt2.
  fold D in Ht, Htn, Nt1, Nt2.
  assert (Hfin2 : Prim2SF e = S754_infinity false ->
                  SFdiv FloatOps.prec emax P2 D <> S754_infinity false).
  { intros HE. apply (SFleb_not_inf _ _ Nt2 Htn). apply Hfin.
    intros Habs. rewrite HE, Habs in Hinf. discriminate. }
  assert (Hfin1 : Prim2SF e = S754_infinity false ->
                  SFdiv FloatOps.prec emax P1 D <> S754_infinity false).
  { intros HE. exact (SFleb_not_inf _ _ Nt1 Ht (Hfin2 HE)). }
  destruct (SFdiv_mono_pos _ _ (Prim2SF e) Vt1 Vt2 Nt1 Nt2 Ht He Hfin2) as [Hr _].
  destruct (SFdiv_mono_pos _ _ (Prim2SF e) Vt1 Vt1 Nt1 Nt1
              (SFleb_refl _ Nt1) He Hfin1) as [_ Nr].
  split; [now apply SFleb_zero_l|exact Hr].
Qed.

End rate_chain.

Section growth_rate_further.

Import internode.
Local Open Scope float_scope.

(** Whatever the zone, [growth_rate] is one division by the period. *)
Lemma growth_rate_one_division (self : Internode) (uzone : option string) :
  exists a, growth_rate self uzone = truediv a (_elongation_period self).
Proof.
  destruct uzone as [z|]; cbn [growth_rate];
    repeat match goal with
           | |- context [String.eqb z ?l] => destruct (String.eqb z l)
           end;
    eexists; reflexivity.
Qed.

(** X14.  [growth_rate] raises exactly when the elongation period is zero ([0.0]
    or [-0.0]), for every zone and every state of the Internode, and then it
    raises [ZeroDivisionError]; no other period (infinite, negative, not a
    number) makes it raise. *)
Theorem growth_rate_raises_iff_zero_period (self : Internode) (uzone : option string) :
  (growth_rate self uzone = Raise ZeroDivisionError <->
   PrimFloat.eqb (_elongation_period self) 0 = true) /\
  (forall err, growth_rate self uzone = Raise err -> err = ZeroDivisionError) /\
  ((exists r, growth_rate self uzone = Ok r) <->
   PrimFloat.eqb (_elongation_period self) 0 = false).
Proof.
  destruct (growth_rate_one_division self uzone) as [a ->]. unfold truediv.
  destruct (PrimFloat.eqb (_elongation_period self) 0); repeat split;
    try congruence; try discriminate.
  - intros [r H]. discriminate.
  - intros _. eexists; reflexivity.
Qed.

(** X15.  With a non-negative maximum length and a positive elongation period,
    not both infinite, the rates of the zones are ordered as their fractions of
    the nominal length are: [0 <= dormant <= small <= medium <= None]. *)
Theorem growth_rate_zone_chain
  (min_length elongation_period plastochron max_length : float) :
  PrimFloat.leb 0 max_length = true ->
  PrimFloat.ltb 0 elongation_period = true ->
  PrimFloat.eqb max_length infinity && PrimFloat.eqb elongation_period infinity
  = false ->
  let self := __init__ min_length elongation_period plastochron max_length in
  exists dormant small medium none,
    growth_rate self (Some "dormant_start") = Ok dormant /\
    growth_rate self (Some "small") = Ok small /\
    growth_rate self (Some "medium") = Ok medium /\
    growth_rate self None = Ok none /\
    PrimFloat.leb 0 dormant = true /\
    PrimFloat.leb dormant small = true /\
    PrimFloat.leb small medium = true /\
    PrimFloat.leb medium none = true.
Proof.
  intros Hm He Hinf self.
  assert (Hdiv : forall a, truediv a elongation_period = Ok (a / elongation_period))
    by (intros a; apply truediv_nonzero, ltb_0_nonzero, He).
  destruct (rate_mono 0.25 0.5 _ _ shrinking_quarter shrinking_half eq_refl
              Hm He Hinf) as [H0 H1].
  destruct (rate_mono 0.5 0.75 _ _ shrinking_half shrinking_three_quarters eq_refl
              Hm He Hinf) as [_ H2].
  destruct (rate_le 0.75 _ _ shrinking_three_quarters Hm He Hinf) as [H3 _].
  do 4 eexists. cbn [growth_rate String.eqb Ascii.eqb Bool.eqb].
  cbn [self __init__ _final_none _final_dormant_start _final_small
       _final_medium _elongation_period].
  rewrite !Hdiv. repeat split; assumption.
Qed.

End growth_rate_further.

Lemma growth_rate_zone_chain_witness :
  exists dormant small medium none,
    internode.growth_rate (internode.__init__ 0.0001 10.0 3.0 0.03)
      (Some "dormant_start") = Ok dormant /\
    internode.growth_rate (internode.__init__ 0.0001 10.0 3.0 0.03)
      (Some "small") = Ok small /\
    internode.growth_rate (internode.__init__ 0.0001 10.0 3.0 0.03)
      (Some "medium") = Ok medium /\
    internode.growth_rate (internode.__init__ 0.0001 10.0 3.0 0.03) None = Ok none /\
    PrimFloat.leb 0 dormant = true /\
    PrimFloat.leb dormant small = true /\
    PrimFloat.leb small medium = true /\
    PrimFloat.leb medium none = true.
Proof.
  exact (growth_rate_zone_chain 0.0001 10.0 3.0 0.03 eq_refl eq_refl eq_refl).
Defined.

(** ** Partial documents *)

Section partial_documents.

Variable lpy_path : string.

(** X16.  Overrides reach exactly the fields given: in the root built from
    [kwargs], a field of a group given as a mapping holds the mapping's value
    for it if there is one and its declared default otherwise, and a field of a
    group not given holds its declared default (the fate table apart, which is
    normalized). *)
Theorem Options_overrides_given_fields
  (kwargs : dict) (root : pyval) (n : string) (g : group) (f : string) (d : pyval) :
  Options_construct lpy_path kwargs = Ok root ->
  In (n, g) Options_fields ->
  In (f, d) (fields lpy_path g) ->
  ~ (g = OptionsMarkov /\ f = "terminal_fate") ->
  match dict_get (KStr n) kwargs with
  | None => field root n f = Some d
  | Some (VDict mapping) =>
      field root n f
      = Some match dict_get (KStr f) mapping with Some v => v | None => d end
  | Some _ => True
  end.
Proof.
  intros H Hn Hf Hnot.
  destruct (Options_construct_inv _ _ _ H) as (attrs & -> & _ & Hattrs).
  destruct (Hattrs n g Hn) as (v & v' & Hv & Hmk & Hv').
  unfold field. cbn [attr]. rewrite Hv'.
  destruct (dict_get (KStr n) kwargs) as [w|].
  - subst v. destruct w; try exact I. cbn in Hmk.
    exact (proj2 (construct_attr lpy_path g entries v' Hmk f d Hf) Hnot).
  - subst v. cbn in Hmk. injection Hmk as <-. cbn [attr].
    pose proof (proj2 (construct_attr lpy_path g [] _ (construct_defaults lpy_path g)
                         f d Hf) Hnot) as Hd.
    exact Hd.
Qed.

End partial_documents.

Lemma Options_overrides_given_fields_witness :
  field example_root "general" "seed" = Some (VInt 7).
Proof.
  refine (Options_overrides_given_fields "lpy" example_kwargs example_root
            "general" OptionsGeneral "seed" (VInt 1163078255) eq_refl _ _ _).
  - cbn. tauto.
  - cbn. tauto.
  - intros [H _]. discriminate H.
Defined.

(** ** Dump and reload as the identity *)

(** Namespaces with the same names, none repeated, and the same attribute
    values are the same. *)
Lemma ns_ext (a : namespace) : forall b : namespace,
  map fst a = map fst b -> NoDup (map fst a) ->
  (forall n, In n (map fst a) -> ns_get n a = ns_get n b) ->
  a = b.
Proof.
  induction a as [|[n v] a IH]; intros [|[n' v'] b]; cbn; try discriminate;
    [reflexivity|].
  intros [= <- Hnames] Hnd Hget. inversion Hnd as [|? ? Hn Hnd']; subst.
  pose proof (Hget n (or_introl eq_refl)) as H0. cbn in H0.
  rewrite String.eqb_refl in H0. injection H0 as <-. f_equal.
  apply IH; [exact Hnames|exact Hnd'|]. intros m Hm.
  specialize (Hget m (or_intror Hm)). cbn in Hget.
  destruct (String.eqb m n) eqn:E; [|exact Hget].
  apply String.eqb_eq in E. subst m. contradiction.
Qed.

Section reload_identity.

Variable lpy_path : string.

(** A group whose field values hold no instance, and whose fate table is
    empty, is rebuilt from its export as it was. *)
Lemma construct_export_identity (g : group) (fs : namespace) :
  map fst fs = field_names lpy_path g ->
  (forall f v, ns_get f fs = Some v -> plain v = true) ->
  (g = OptionsMarkov ->
   ns_get "terminal_fate" fs = Some (VDict []) \/
   ns_get "terminal_fate" fs = Some VNone) ->
  construct lpy_path g (export fs) = Ok (VInstance (Cls g) fs).
Proof.
  intros Hnames Hplain Hfate.
  destruct (construct_export lpy_path g fs Hnames Hfate) as (fs' & Hc & _).
  rewrite Hc. do 2 f_equal. symmetry.
  destruct (construct_field_names lpy_path g _ _ Hc) as (fs0 & [= <-] & Hnames').
  apply ns_ext.
  - now rewrite Hnames.
  - rewrite Hnames. apply field_names_nodup.
  - intros f Hf. rewrite Hnames in Hf. unfold field_names in Hf.
    apply in_map_iff in Hf as [[f' d] [E Hin]]. cbn in E. subst f'.
    destruct (ns_get f fs) as [v|] eqn:Ev.
    2:{ apply ns_get_none in Ev. exfalso. apply Ev. rewrite Hnames.
        unfold field_names. change f with (fst (f, d)). now apply in_map. }
    pose proof (construct_attr lpy_path g (export fs) _ Hc f d Hin) as [Hm Ho].
    cbn zeta in Hm, Ho. rewrite dict_get_export, Ev in Hm, Ho. cbn in Hm, Ho.
    rewrite (asdict_inner_plain v (Hplain f v Ev)) in Hm, Ho.
    assert (Hdec : g = OptionsMarkov \/ g <> OptionsMarkov)
      by (destruct g; (now left) || (right; discriminate)).
    destruct Hdec as [->|Hg].
    + destruct (String.eqb_spec f "terminal_fate") as [->|Hne].
      * destruct (Hm (conj eq_refl eq_refl)) as (fate & Hnorm & Hattr).
        rewrite Hattr. f_equal.
        destruct (Hfate eq_refl) as [H|H]; rewrite H in Ev; injection Ev as <-;
          cbn in Hnorm; now injection Hnorm.
      * symmetry. apply Ho. intros [_ ?]. contradiction.
    + symmetry. apply Ho. intros [? _]. contradiction.
Qed.

(** X17.  Dumping a root and loading the text gives the root back, when its
    groups are instances of their classes, no field value holds an instance, the
    fate table is empty, and [toml] reproduces the exported mapping. *)
Theorem loads_dumps_identity (T : toml) (root : pyval) (text : string) :
  wf_root lpy_path root ->
  (forall n g f v, In (n, g) Options_fields ->
     field root n f = Some v -> plain v = true) ->
  fate_empty root ->
  codec_reproduces T root text ->
  Options_dumps T root = Ok text /\
  Options_loads lpy_path T text = Ok root.
Proof.
  intros (attrs & -> & Hnames & Hattrs) Hplain Hfate (d & Hd & Hdump & Hload).
  cbn [asdict] in Hd. fold (export attrs) in Hd. injection Hd as <-.
  split.
  { unfold Options_dumps. cbn [asdict bind]. exact Hdump. }
  unfold Options_loads. rewrite Hload. cbn [bind].
  assert (Hc : forall n g, In (n, g) Options_fields ->
            exists fs,
              ns_get n attrs = Some (VInstance (Cls g) fs) /\
              construct lpy_path g (export fs) = Ok (VInstance (Cls g) fs)).
  { intros n g Hin. destruct (Hattrs n g Hin) as (v & Hv & fs & -> & Hfs).
    exists fs. split; [exact Hv|]. apply construct_export_identity.
    - exact Hfs.
    - intros f v Hf. apply (Hplain n g f v Hin). unfold field. cbn [attr].
      now rewrite Hv.
    - intros ->. apply Options_fields_markov in Hin. subst n.
      unfold fate_empty, field in Hfate. cbn [attr] in Hfate.
      rewrite Hv in Hfate. exact Hfate. }
  destruct (Options_construct_ok lpy_path (export attrs)) as [root' Hroot'].
  { now apply keyword_ok_export. }
  { intros n g Hin. destruct (Hc n g Hin) as (fs & Hv & Hmk).
    rewrite dict_get_export, Hv. cbn. now exists (VInstance (Cls g) fs). }
  rewrite Hroot'. f_equal.
  destruct (Options_construct_inv _ _ _ Hroot') as (attrs' & -> & Hnames' & Hattrs').
  f_equal. apply ns_ext.
  - now rewrite Hnames.
  - rewrite Hnames'. exact Options_fields_nodup.
  - intros n Hn. rewrite Hnames' in Hn.
    apply in_map_iff in Hn as [[n' g] [E Hin]]. cbn in E. subst n'.
    destruct (Hc n g Hin) as (fs & Hv & Hmk).
    destruct (Hattrs' n g Hin) as (w & w' & Hw & Hmk' & Hw').
    rewrite dict_get_export, Hv in Hw. cbn in Hw. subst w.
    cbn [_make_dataclass] in Hmk'. fold (export fs) in Hmk'.
    rewrite Hmk in Hmk'. injection Hmk' as <-. now rewrite Hw', Hv.
Qed.

End reload_identity.

Lemma ns_get_some_in (n : string) (v : pyval) (self : namespace) :
  ns_get n self = Some v -> In (n, v) self.
Proof.
  induction self as [|[n' v'] self IH]; cbn; [discriminate|].
  destruct (String.eqb n n') eqn:E.
  - apply String.eqb_eq in E. intros [= ->]. subst. now left.
  - intros H. right. now apply IH.
Qed.

Lemma default_root_plain (n : string) (g : group) (f : string) (v : pyval) :
  In (n, g) Options_fields ->
  field (default_root "lpy") n f = Some v -> plain v = true.
Proof.
  intros Hin Hf.
  assert (Hall : forallb (fun nv => plain (snd nv)) (fields "lpy" g) = true)
    by (destruct g; reflexivity).
  assert (Hsub : attr (default_root "lpy") n = Some (defaults "lpy" g)).
  { cbn in Hin.
    repeat (destruct Hin as [[= <- <-]|Hin]; [reflexivity|]). destruct Hin. }
  unfold field in Hf. rewrite Hsub in Hf. cbn [attr defaults] in Hf.
  apply ns_get_some_in in Hf.
  exact (proj1 (forallb_forall _ _) Hall (f, v) Hf).
Qed.

Lemma loads_dumps_identity_witness :
  Options_loads "lpy" (one_document (export
      (map (fun ng => (fst ng, defaults "lpy" (snd ng))) Options_fields)))
    "document" = Ok (default_root "lpy").
Proof.
  refine (proj2 (loads_dumps_identity "lpy" _ (default_root "lpy") "document"
                   default_root_wf default_root_plain (or_introl eq_refl) _)).
  eexists. repeat split.
Defined.
